(** * video_downloader.py: a shallow embedding of [VideoDownloader]

    The batch driver of [src/video_downloader.py] is embedded as a
    state-and-exception monad over the fields of the [VideoDownloader]
    object, the two ledger files and a history of the external calls the
    program makes.  Everything the program cannot decide by itself (the
    CSV file, the proxy-issuing service, the two external tools, the
    directory listing, the operator at the checkpoint, whether the file
    system takes a write to the error ledger, how long a call takes)
    comes from a [World] record of oracles, so that every definition
    below runs on a concrete world. *)

From Stdlib Require Import ZArith Ascii String DecimalString DecimalPos.
From stdpp Require Import gmap strings list.

#[local] Set Warnings "-clear-no-such-hyp".

Local Open Scope string_scope.
Local Open Scope Z_scope.

(** ** Python strings *)

Module PyStr.

(** [str.isspace] restricted to the ASCII range: tab, line feed, vertical
    tab, form feed, carriage return, the four separators 0x1c-0x1f and
    the space. *)
Definition isspace (c : ascii) : bool :=
  let n := nat_of_ascii c in
  ((9 <=? n) && (n <=? 13) || (28 <=? n) && (n <=? 32))%nat.

Fixpoint lstrip (s : string) : string :=
  match s with
  | "" => ""
  | String c s' => if isspace c then lstrip s' else s
  end.

Definition rstrip (s : string) : string := String.rev (lstrip (String.rev s)).

(** [s.strip()] *)
Definition strip (s : string) : string := rstrip (lstrip s).

(** [s.endswith(suf)]: some suffix of [s] is [suf]. *)
Fixpoint endswith (s suf : string) : bool :=
  String.eqb s suf ||
  match s with
  | "" => false
  | String _ s' => endswith s' suf
  end.

(** [s.startswith(pre)] *)
Definition startswith (s pre : string) : bool := String.prefix pre s.

(** [s.rfind(c)] for a one-character needle: the highest index, or -1. *)
Fixpoint rfind (c : ascii) (s : string) : Z :=
  match s with
  | "" => -1
  | String a s' =>
      let r := rfind c s' in
      if 0 <=? r then r + 1 else if Ascii.eqb a c then 0 else -1
  end.

(** [s[:n]] and [s[n:]] for [0 <= n]. *)
Fixpoint take (n : nat) (s : string) : string :=
  match n, s with
  | S n', String c s' => String c (take n' s')
  | _, _ => ""
  end.

Fixpoint drop (n : nat) (s : string) : string :=
  match n, s with
  | S n', String _ s' => drop n' s'
  | _, _ => s
  end.

Fixpoint all_chars (p : ascii -> bool) (s : string) : bool :=
  match s with
  | "" => true
  | String c s' => p c && all_chars p s'
  end.

(** [str(n)] for an [int]. *)
Definition of_Z (n : Z) : string := NilZero.string_of_int (Z.to_int n).

Definition is_digit (c : ascii) : bool :=
  let n := nat_of_ascii c in ((48 <=? n) && (n <=? 57))%nat.

Definition digit_value (c : ascii) : Z := Z.of_nat (nat_of_ascii c) - 48.

(** The digit part of a decimal literal accepted by [int(s)]: at least
    one digit, single underscores allowed between digits only.
    [after_digit] tells whether the previous character was a digit. *)
Fixpoint digits (acc : Z) (after_digit : bool) (s : string) : option Z :=
  match s with
  | "" => if after_digit then Some acc else None
  | String c s' =>
      if is_digit c then digits (10 * acc + digit_value c) true s'
      else if Ascii.eqb c "_" && after_digit then digits acc false s'
      else None
  end.

(** [int(s)] in base 10 on ASCII text: surrounding whitespace dropped, an
    optional sign, then the digits.  [None] stands for [ValueError].
    (Non-ASCII digits and the interpreter's limit on the length of a
    literal are outside this model.) *)
Definition int (s : string) : option Z :=
  match strip s with
  | String "-" d => Z.opp <$> digits 0 false d
  | String "+" d => digits 0 false d
  | d => digits 0 false d
  end.

End PyStr.

(** ** [os.path] on POSIX *)

Module PosixPath.

(** One step of [os.path.join(a, b)]. *)
Definition join2 (a b : string) : string :=
  if PyStr.startswith b "/" then b
  else if String.eqb a "" || PyStr.endswith a "/" then a +:+ b
  else a +:+ "/" +:+ b.

(** [os.path.join(a, *p)] *)
Definition join (a : string) (p : list string) : string := foldl join2 a p.

(** [os.path.splitext(p)]: the extension starts at the last dot after
    the last slash, unless only dots precede it in the file name. *)
Definition splitext (p : string) : string * string :=
  let sepIndex := PyStr.rfind "/" p in
  let dotIndex := PyStr.rfind "." p in
  if sepIndex <? dotIndex then
    let filenameIndex := Z.to_nat (sepIndex + 1) in
    let before := PyStr.take (Z.to_nat dotIndex - filenameIndex)
                             (PyStr.drop filenameIndex p) in
    if PyStr.all_chars (fun c => Ascii.eqb c ".") before then (p, "")
    else (PyStr.take (Z.to_nat dotIndex) p, PyStr.drop (Z.to_nat dotIndex) p)
  else (p, "").

(** [os.path.basename(p)] *)
Definition basename (p : string) : string :=
  PyStr.drop (Z.to_nat (PyStr.rfind "/" p + 1)) p.

End PosixPath.

(** ** Exceptions, outcomes and the monad of the program *)

(** The classes derived from [Exception] that can arise in this program.
    [SystemExit] is not one of them: it is the [Exit] outcome below, which
    no [except Exception] clause intercepts. *)
Inductive Exc : Type :=
| FileNotFoundError
| OSError
| ValueError
| KeyError
| IndexError
| EOFError
| RequestException
| JSONDecodeError
| TimeoutExpired
| CalledProcessError (returncode : Z).

Inductive Outcome (A : Type) : Type :=
| Ok (a : A)
| Raise (e : Exc)
| Exit (code : Z).
Arguments Ok {A} a.
Arguments Raise {A} e.
Arguments Exit {A} code.

(** What [subprocess.run] does: the child returns a code, or the call
    raises ([TimeoutExpired] when the timeout strikes, anything else
    when the child cannot be started). *)
Inductive ProcResult : Type :=
| Returned (returncode : Z)
| Threw (e : Exc).

(** One element of the [data] array of the proxy service's answer; a
    field is [None] when the key is missing.  The port is kept as the
    text that [%s] prints. *)
Record Entry : Type := { ip : option string; port : option string }.

(** What one GET on the proxy service yields: no answer, a body that
    is not JSON, or a JSON object with its [ret] and [data] members
    ([None] when absent; a [ret] that is not an integer behaves like any
    integer other than 200). *)
Inductive Reply : Type :=
| TransportError
| NotJson
| Json (ret : option Z) (data : option (list Entry)).

(** The calls that leave the process, in the order they are made. *)
Inductive Event : Type :=
| Get (url : string)
| Sleep (secs : Z)
| Makedirs (path : string)
| Shell (command : string)
| Exec (argv : list string)
| Input.

(** The fields of the object, the two ledger files and the history.

    [error_log] holds the labels written to [error_log.txt], one per
    successful write.  [progress_log] is [None] while [progress_log.txt]
    does not exist; otherwise it holds the lines that were read from the
    file followed by the records appended since, without their line
    terminators.  These are the lines of the file as long as the text
    that was read ended with a line terminator, which is how this
    program leaves it; what the bytes of the file become in the other
    case is the subject of [ledger_lines] and [ledger_append] below.

    The wall clock is counted in whole seconds and advances only while a
    call outside the process is under way; [fetches] counts the requests
    sent to the proxy service and [error_writes] the attempts to append
    to [error_log.txt]. *)
Record State : Type := {
  proxy : option string;
  proxy_fetch_time : Z;
  error_log : list string;
  progress_log : option (list string);
  clock : Z;
  fetches : nat;
  error_writes : nat;
  history : list Event
}.

(** Everything outside the process. *)
Record World : Type := {
  ip_url : string;
  output_dir : string;
  csv_avid : Exc + list Z;           (* pd.read_csv(...)['avid'] *)
  reply : nat -> Reply;              (* the n-th GET, counted from 0 *)
  makedirs : string -> option Exc;   (* os.makedirs(path, exist_ok=True) *)
  shell : string -> ProcResult;      (* the download command *)
  walk : string -> list (string * list string);  (* os.walk: (root, files) *)
  exec : list string -> ProcResult;  (* the cover-extraction command *)
  operator : Z -> option Exc;        (* input() at the checkpoint of an index *)
  error_write : nat -> option Exc;   (* the n-th append to error_log.txt, from 0 *)
  elapsed : Event -> Z               (* seconds a call takes *)
}.

Definition M (A : Type) : Type := State -> Outcome A * State.

Definition M_ret {A} (a : A) : M A := fun st => (Ok a, st).

Definition M_bind {A B} (f : A -> M B) (c : M A) : M B :=
  fun st =>
    match c st with
    | (Ok a, st') => f a st'
    | (Raise e, st') => (Raise e, st')
    | (Exit n, st') => (Exit n, st')
    end.

#[export] Instance M_mret : MRet M := @M_ret.
#[export] Instance M_mbind : MBind M := @M_bind.

Definition raise {A} (e : Exc) : M A := fun st => (Raise e, st).

(** [sys.exit(code)] *)
Definition sys_exit {A} (code : Z) : M A := fun st => (Exit code, st).

(** [try: c  except Exception as e: h e] *)
Definition try_except {A} (c : M A) (h : Exc -> M A) : M A :=
  fun st =>
    match c st with
    | (Raise e, st') => h e st'
    | r => r
    end.

Definition get_state : M State := fun st => (Ok st, st).

Definition modify (f : State -> State) : M unit := fun st => (Ok tt, f st).

Definition lift_option {A} (e : Exc) (o : option A) : M A :=
  match o with Some a => mret a | None => raise e end.

(** ** The pure parts of [run] *)

(** [Series.unique()] of pandas: the distinct values in order of
    appearance, found with a table of the values seen so far. *)
Fixpoint unique_from (seen : gset Z) (l : list Z) : list Z :=
  match l with
  | [] => []
  | x :: l' =>
      if decide (x ∈ seen) then unique_from seen l'
      else x :: unique_from ({[x]} ∪ seen) l'
  end.

Definition unique (l : list Z) : list Z := unique_from ∅ l.

(** [[avid for avid in avid_list if avid not in completed_avids]] *)
Definition remaining_avids (avid_list : list Z) (completed_avids : gset Z) : list Z :=
  filter (fun avid => avid ∉ completed_avids) avid_list.

(** [set(int(line.strip()) for line in f if line.strip())]; [None] is
    the [ValueError] of the first line that is not an integer. *)
Fixpoint parse_progress (lines : list string) : option (gset Z) :=
  match lines with
  | [] => Some ∅
  | line :: rest =>
      if String.eqb (PyStr.strip line) "" then parse_progress rest
      else
        n ← PyStr.int (PyStr.strip line);
        s ← parse_progress rest;
        Some ({[n]} ∪ s)
  end.

(** ** The text of a ledger file *)

Definition LF : ascii := "010".
Definition CR : ascii := "013".

Definition is_newline (c : ascii) : bool := Ascii.eqb c LF || Ascii.eqb c CR.

(** The lines of a text as [for line in f] meets them in text mode: a
    line ends at a line feed, at a carriage return followed by a line
    feed, or at a lone carriage return, and what follows the last
    terminator is a line too unless it is empty.  The lines are given
    without their terminators, which [strip] drops anyway.  [cur] is the
    part of the current line read so far; [after_cr] tells that the
    previous character was a carriage return, whose terminator a line
    feed would complete. *)
Fixpoint lines_from (after_cr : bool) (cur text : string) : list string :=
  match text with
  | "" => if String.eqb cur "" then [] else [cur]
  | String c rest =>
      if Ascii.eqb c LF then
        if after_cr then lines_from false "" rest
        else cur :: lines_from false "" rest
      else if Ascii.eqb c CR then cur :: lines_from true "" rest
      else lines_from false (cur +:+ String c "") rest
  end.

Definition ledger_lines (text : string) : list string := lines_from false "" text.

(** What [log_progress] does to the bytes of the file: opened with
    ['a'], the ID and a line feed go after the last byte. *)
Definition ledger_append (text : string) (completed_avid : Z) : string :=
  text +:+ PyStr.of_Z completed_avid +:+ String LF "".

(** The text ends with a line terminator. *)
Definition ends_line (text : string) : Prop :=
  ∃ body c, text = body +:+ String c "" ∧ is_newline c = true.

(** The text ends where a line ends: it is empty, or its last character
    is a line feed or a carriage return. *)
Definition terminated (text : string) : Prop := text = "" ∨ ends_line text.

(** A text without line terminators. *)
Definition clean (s : string) : Prop :=
  PyStr.all_chars (fun c => negb (is_newline c)) s = true.

Definition starts_with_LF (text : string) : bool :=
  match text with String c _ => Ascii.eqb c LF | "" => false end.

(** The text of a file that may be missing. *)
Definition text_of (file : option string) : string := default "" file.

(** ** The methods of [VideoDownloader] *)

Section VideoDownloader.

Context (w : World).

(** An external call: it enters the history and takes its time. *)
Definition emit (ev : Event) : M unit :=
  modify (fun st =>
    {| proxy := proxy st; proxy_fetch_time := proxy_fetch_time st;
       error_log := error_log st; progress_log := progress_log st;
       clock := clock st + elapsed w ev;
       fetches := fetches st; error_writes := error_writes st; history := (history st ++ [ev])%list |}).

(** [open] for appending, then [write] of the label and a line feed.
    The file system may refuse, and then the exception of [open] or
    [write] leaves the method, with the ledger as it was. *)
Definition log_error (label : string) : M unit :=
  st ← get_state;
  modify (fun st =>
    {| proxy := proxy st; proxy_fetch_time := proxy_fetch_time st;
       error_log := error_log st; progress_log := progress_log st;
       clock := clock st; fetches := fetches st;
       error_writes := S (error_writes st); history := history st |});;
  match error_write w (error_writes st) with
  | Some e => raise e
  | None =>
      modify (fun st =>
        {| proxy := proxy st; proxy_fetch_time := proxy_fetch_time st;
           error_log := (error_log st ++ [label])%list;
           progress_log := progress_log st;
           clock := clock st; fetches := fetches st;
           error_writes := error_writes st; history := history st |})
  end.

(** [open] for appending, then [write] of the ID and a line feed, seen
    on the lines of the file: one more record (see [ledger_append] for
    the bytes).  The append is taken to succeed; a refusal would be one
    more exception inside the [try] of the item. *)

Definition log_progress (completed_avid : Z) : M unit :=
  modify (fun st =>
    {| proxy := proxy st; proxy_fetch_time := proxy_fetch_time st;
       error_log := error_log st;
       progress_log := Some (default [] (progress_log st) ++ [PyStr.of_Z completed_avid])%list;
       clock := clock st; fetches := fetches st; error_writes := error_writes st; history := history st |}).

Definition load_progress : M (gset Z) :=
  st ← get_state;
  match progress_log st with
  | Some lines => lift_option ValueError (parse_progress lines)
  | None => mret ∅
  end.

(** [requests.get(url).text] *)
Definition requests_get (url : string) : M Reply :=
  st ← get_state;
  emit (Get url);;
  modify (fun st =>
    {| proxy := proxy st; proxy_fetch_time := proxy_fetch_time st;
       error_log := error_log st; progress_log := progress_log st;
       clock := clock st; fetches := S (fetches st); error_writes := error_writes st; history := history st |});;
  match reply w (fetches st) with
  | TransportError => raise RequestException
  | r => mret r
  end.

(** [json.loads(text)], as the pair of the members [ret] and [data] *)
Definition json_loads (r : Reply) : M (option Z * option (list Entry)) :=
  match r with
  | Json ret data => mret (ret, data)
  | _ => raise JSONDecodeError
  end.

(** [ip['data'][0]] *)
Definition first_entry (data : option (list Entry)) : M Entry :=
  l ← lift_option KeyError data;
  lift_option IndexError (head l).

Definition sleep (secs : Z) : M unit := emit (Sleep secs).

(** The body of the [try] of one attempt; [Some] is the [break]. *)
Definition attempt_body (url : string) : M (option (option (list Entry))) :=
  r ← requests_get url;
  '(ret, data) ← json_loads r;
  code ← lift_option KeyError ret;
  if code =? 200 then
    first_entry data;;        (* formatted into the log line *)
    mret (Some data)
  else
    sleep 5;;
    mret None.

(** [for attempt in range(n): ... else: sys.exit(1)] *)
Fixpoint get_ip_loop (n : nat) (url : string) : M (option (list Entry)) :=
  match n with
  | O => sys_exit 1
  | S n' =>
      b ← try_except (attempt_body url) (fun _ => sleep 5;; mret None);
      match b with
      | Some data => mret data
      | None => get_ip_loop n' url
      end
  end.

Definition max_retries : nat := 5.

Definition get_ip (url : string) : M string :=
  data ← get_ip_loop max_retries url;
  e1 ← first_entry data;
  a ← lift_option KeyError (ip e1);
  e2 ← first_entry data;
  p ← lift_option KeyError (port e2);
  let proxy_url := "http://" +:+ a +:+ ":" +:+ p in
  modify (fun st =>
    {| proxy := Some proxy_url; proxy_fetch_time := clock st;
       error_log := error_log st; progress_log := progress_log st;
       clock := clock st; fetches := fetches st; error_writes := error_writes st; history := history st |});;
  mret proxy_url.

Definition lease_stale (st : State) : bool :=
  match proxy st with
  | None => true
  | Some _ => 300 <? clock st - proxy_fetch_time st
  end.

Definition check_ip_validity : M unit :=
  st ← get_state;
  if lease_stale st then
    p ← get_ip (ip_url w);
    modify (fun st =>
      {| proxy := Some p; proxy_fetch_time := proxy_fetch_time st;
         error_log := error_log st; progress_log := progress_log st;
         clock := clock st; fetches := fetches st; error_writes := error_writes st; history := history st |})
  else mret tt.

Definition merge_dir (avid : Z) : string :=
  PosixPath.join (output_dir w) [PyStr.of_Z avid; "merge"].

Definition os_makedirs (path : string) : M unit :=
  emit (Makedirs path);;
  match makedirs w path with
  | Some e => raise e
  | None => mret tt
  end.

Definition create_directories (avid : Z) : M (string * string * string) :=
  let merge_path := merge_dir avid in
  let audio_only_path := PosixPath.join (output_dir w) [PyStr.of_Z avid; "audio_only"] in
  let video_only_path := PosixPath.join (output_dir w) [PyStr.of_Z avid; "video_only"] in
  os_makedirs merge_path;;
  os_makedirs audio_only_path;;
  os_makedirs video_only_path;;
  mret (merge_path, audio_only_path, video_only_path).

(** What an f-string prints for [self.proxy]. *)
Definition proxy_text (p : option string) : string := default "None" p.

Definition yutto_command (avid : Z) (p : option string) (merge_path : string) : string :=
  let base_url := "https://www.bilibili.com/video/av" +:+ PyStr.of_Z avid +:+ "/" in
  "yutto " +:+ base_url +:+ " --with-metadata -d " +:+ merge_path +:+
  " --proxy " +:+ proxy_text p +:+ " --no-progress -w".

(** [subprocess.run(command, shell=True, timeout=180)] *)
Definition subprocess_run_shell (command : string) : M Z :=
  emit (Shell command);;
  match shell w command with
  | Returned rc => mret rc
  | Threw e => raise e
  end.

(** [subprocess.run(argv, check=True, timeout=60)] *)
Definition subprocess_run_check (argv : list string) : M unit :=
  emit (Exec argv);;
  match exec w argv with
  | Returned 0 => mret tt
  | Returned rc => raise (CalledProcessError rc)
  | Threw e => raise e
  end.

Definition run_command (avid : Z) (command : string) : M unit :=
  try_except
    (rc ← subprocess_run_shell command;
     if rc =? 0 then mret tt else log_error (PyStr.of_Z avid))
    (fun e =>
       match e with
       | TimeoutExpired => log_error (PyStr.of_Z avid)
       | _ => log_error (PyStr.of_Z avid)
       end).

Definition generate_and_run_commands (avid : Z) (p : option string)
    (merge_path audio_only_path video_only_path : string) : M unit :=
  let commands := [yutto_command avid p merge_path] in
  mapM (run_command avid) commands;;
  mret tt.

Definition ffmpeg_command (video_path : string) : list string :=
  let output_path := (PosixPath.splitext video_path).1 +:+ ".jpg" in
  ["ffmpeg"; "-loglevel"; "quiet"; "-i"; video_path;
   "-map"; "0:v"; "-map"; "-0:V"; "-c"; "copy"; output_path].

Definition extract_cover_image (video_path : string) : M unit :=
  try_except
    (subprocess_run_check (ffmpeg_command video_path))
    (fun e =>
       match e with
       | CalledProcessError _ => log_error (PosixPath.basename video_path)
       | _ => raise e
       end).

(** [for file in files: if file.endswith('.mp4'): ...] *)
Fixpoint cover_files (root : string) (files : list string) : M unit :=
  match files with
  | [] => mret tt
  | file :: files' =>
      (if PyStr.endswith file ".mp4"
       then extract_cover_image (PosixPath.join root [file])
       else mret tt);;
      cover_files root files'
  end.

(** [for root, _, files in os.walk(merge_path): ...] *)
Fixpoint cover_walk (dirs : list (string * list string)) : M unit :=
  match dirs with
  | [] => mret tt
  | (root, files) :: dirs' => cover_files root files;; cover_walk dirs'
  end.

(** The pause of every thousandth item. *)
Definition checkpoint (index : Z) : M unit :=
  if index mod 1000 =? 0 then
    emit Input;;
    match operator w index with
    | Some e => raise e
    | None => mret tt
    end
  else mret tt.

(** The body of the [try] inside the loop of [run]. *)
Definition process_item (index avid : Z) : M unit :=
  '(merge_path, audio_only_path, video_only_path) ← create_directories avid;
  st ← get_state;
  generate_and_run_commands avid (proxy st) merge_path audio_only_path video_only_path;;
  cover_walk (walk w merge_path);;
  log_progress avid;;
  checkpoint index.

(** One turn of the loop without the lease check. *)
Definition guarded_item (index avid : Z) : M unit :=
  try_except (process_item index avid) (fun _ => log_error (PyStr.of_Z avid)).

(** [for index, avid in enumerate(remaining_avids, start=index): ...] *)
Fixpoint run_loop (index : Z) (remaining : list Z) : M unit :=
  match remaining with
  | [] => mret tt
  | avid :: rest =>
      check_ip_validity;;
      guarded_item index avid;;
      run_loop (index + 1) rest
  end.

Definition pd_read_csv : M (list Z) :=
  match csv_avid w with
  | inl e => raise e
  | inr column => mret column
  end.

(** The body of the outer [try] of [run]. *)
Definition run_body : M unit :=
  avid_df ← pd_read_csv;
  let avid_list := unique avid_df in
  completed_avids ← load_progress;
  let remaining := remaining_avids avid_list completed_avids in
  get_ip (ip_url w);;
  run_loop 1 remaining.

Definition run : M unit :=
  try_except run_body
    (fun e =>
       match e with
       | FileNotFoundError => sys_exit 1
       | _ => sys_exit 1
       end).

End VideoDownloader.

(** The state in which [run] starts: no lease yet, the ledgers as the
    earlier runs left them. *)
Definition start (errors : list string) (progress : option (list string)) (now : Z) : State :=
  {| proxy := None; proxy_fetch_time := 0; error_log := errors;
     progress_log := progress; clock := now; fetches := 0; error_writes := 0; history := [] |}.

(** The exit status of the process. *)
Definition exit_code {A} (o : Outcome A) : Z :=
  match o with
  | Ok _ => 0
  | Raise _ => 1
  | Exit code => code
  end.

(** ** Notions used in the statements *)

(** The position at which a value is first seen in the source column. *)
Definition first_index (x : Z) (l : list Z) : option nat :=
  fst <$> list_find (fun y => y = x) l.

(** A line of a ledger that [if line.strip()] keeps. *)
Definition nonblank (line : string) : Prop := PyStr.strip line ≠ "".

(** An answer of the proxy service that does not grant a lease: no
    answer, no JSON, or a status other than 200. *)
Definition failed_reply (r : Reply) : Prop :=
  match r with
  | TransportError | NotJson => True
  | Json ret _ => ret ≠ Some 200
  end.

(** The state after one attempt of [get_ip] that failed: one GET, one
    pause of five seconds, nothing else. *)
Definition failed_attempt (w : World) (url : string) (st : State) : State :=
  {| proxy := proxy st; proxy_fetch_time := proxy_fetch_time st;
     error_log := error_log st; progress_log := progress_log st;
     clock := clock st + elapsed w (Get url) + elapsed w (Sleep 5);
     fetches := S (fetches st); error_writes := error_writes st;
     history := (history st ++ [Get url; Sleep 5])%list |}.

(** The ledgers, the history and the count of requests only ever grow. *)
Record grows (st st' : State) : Prop := {
  grows_history : history st `prefix_of` history st';
  grows_errors : error_log st `prefix_of` error_log st';
  grows_progress :
    default [] (progress_log st) `prefix_of` default [] (progress_log st');
  grows_fetches : (fetches st ≤ fetches st')%nat
}.

(** The two ledgers are left as they are. *)
Definition same_ledgers (st st' : State) : Prop :=
  error_log st' = error_log st ∧ progress_log st' = progress_log st.

(** A computation whose final state is always related to its initial
    state. *)
Definition preserves (R : relation State) {A} (c : M A) : Prop :=
  ∀ st, R st (c st).2.

Abbreviation stable c := (preserves grows c).
Abbreviation off_ledger c := (preserves same_ledgers c).

(** A computation that never calls [sys.exit]. *)
Definition never_exits {A} (c : M A) : Prop := ∀ st code, (c st).1 ≠ Exit code.

(** The outcome of a call whose value is dropped. *)
Definition outcome_unit {A} (o : Outcome A) : Outcome unit :=
  match o with
  | Ok _ => Ok tt
  | Raise e => Raise e
  | Exit code => Exit code
  end.

(** [check_ip_validity] goes through [get_ip]: it ends as [get_ip] ends,
    and the proxy service has been asked at least once. *)
Definition reacquires (w : World) (st : State) : Prop :=
  check_ip_validity w st =
    (outcome_unit (get_ip w (ip_url w) st).1, (get_ip w (ip_url w) st).2) ∧
  ∃ rest, history (check_ip_validity w st).2
          = (history st ++ Get (ip_url w) :: rest)%list.

(** The proxy service is always able to renew the lease. *)
Definition lease_never_fails (w : World) : Prop :=
  ∀ st, ∃ st', check_ip_validity w st = (Ok tt, st').

(** The download of an item started in state [st] does not end with
    status 0: another status, a timeout, or a failure to run at all. *)
Definition download_fails (w : World) (avid : Z) (st : State) : Prop :=
  shell w (yutto_command avid (proxy st) (merge_dir w avid)) ≠ Returned 0.

(** Processing the item raises an exception in state [st]. *)
Definition item_raises (w : World) (index avid : Z) (st : State) : Prop :=
  ∃ e, (process_item w index avid st).1 = Raise e.

(** The videos below a directory, as the two loops over [os.walk] meet
    them: the files named [*.mp4], joined to their directory. *)
Definition file_paths (root : string) (files : list string) : list string :=
  (fun file => PosixPath.join root [file]) <$>
  filter (fun file => PyStr.endswith file ".mp4" = true) files.

Definition video_paths (dirs : list (string * list string)) : list string :=
  dirs ≫= (fun '(root, files) => file_paths root files).

(** What a run of the two loops over [os.walk] may leave, [all] being
    the videos to treat: the extraction tool was called on a prefix of
    [all], in order and on nothing else; either the loops ended
    normally and the prefix is all of [all], or a call on one of the
    videos raised something other than [CalledProcessError], or the
    write of a failed video to the error ledger raised. *)
Definition covers_outcome (w : World) (all : list string) (st : State)
    (r : Outcome unit * State) : Prop :=
  ∃ treated,
    treated `prefix_of` all ∧
    history r.2 = (history st ++ ((fun v => Exec (ffmpeg_command v)) <$> treated))%list ∧
    ((r.1 = Ok tt ∧ treated = all) ∨
     (∃ e v, r.1 = Raise e ∧ v ∈ all ∧
        ((exec w (ffmpeg_command v) = Threw e ∧ ∀ rc, e ≠ CalledProcessError rc) ∨
         (∃ n, error_write w n = Some e)))).

(** The error ledger can always be written. *)
Definition error_ledger_writable (w : World) : Prop :=
  ∀ n, error_write w n = None.

(** The two states in which [log_error] may leave: the write was
    attempted and refused, or the label is in the ledger. *)
Definition refused (st : State) : State :=
  {| proxy := proxy st; proxy_fetch_time := proxy_fetch_time st;
     error_log := error_log st; progress_log := progress_log st;
     clock := clock st; fetches := fetches st;
     error_writes := S (error_writes st); history := history st |}.

Definition logged (label : string) (st : State) : State :=
  {| proxy := proxy st; proxy_fetch_time := proxy_fetch_time st;
     error_log := (error_log st ++ [label])%list; progress_log := progress_log st;
     clock := clock st; fetches := fetches st;
     error_writes := S (error_writes st); history := history st |}.

(** A file name without a slash, and one that does not consist of dots
    only. *)
Definition no_slash (s : string) : Prop :=
  PyStr.all_chars (fun c => negb (Ascii.eqb c "/")) s = true.

Definition not_only_dots (s : string) : Prop :=
  PyStr.all_chars (fun c => Ascii.eqb c ".") s = false.

(** What [os.path.join] puts before a file name without a slash: the
    directory, closed by one slash unless it is empty. *)
Definition dir_prefix (root : string) : string :=
  if String.eqb root "" || PyStr.endswith root "/" then root else root +:+ "/".

(** ** Sample worlds *)

Module Scenario.

Definition good : Reply :=
  Json (Some 200) (Some [{| ip := Some "10.0.0.1"; port := Some "8080" |}]).

Definition lease : option string := Some "http://10.0.0.1:8080".

(** A world with the batch [small_output/b]: directories can always be
    made, the error ledger can always be written and the operator always
    answers. *)
Definition world_of (csv : Exc + list Z) (replies : nat -> Reply)
    (sh : string -> ProcResult) (wk : string -> list (string * list string))
    (ex : list string -> ProcResult) (secs : Event -> Z) : World :=
  {| ip_url := "http://issuer/get"; output_dir := "small_output/b";
     csv_avid := csv; reply := replies; makedirs := fun _ => None;
     shell := sh; walk := wk; exec := ex; operator := fun _ => None;
     error_write := fun _ => None; elapsed := secs |}.

Definition merge_of (avid : Z) : string :=
  "small_output/b/" +:+ PyStr.of_Z avid +:+ "/merge".

(** The download of one item leaves one video and its metadata. *)
Definition one_video (avid : Z) (p : string) : list (string * list string) :=
  if String.eqb p (merge_of avid) then [(p, ["v.mp4"; "v.json"])] else [].

(** Both tools succeed on everything. *)
Definition healthy : World :=
  world_of (inr [101; 102]) (fun _ => good) (fun _ => Returned 0)
           (one_video 101) (fun _ => Returned 0) (fun _ => 1).

(** The ledger of an earlier run with a damaged second line. *)
Definition damaged_ledger : State := start [] (Some ["101"; "abc"]) 0.

(** The proxy service never grants a lease. *)
Definition no_lease : World :=
  world_of (inr [101; 102]) (fun n => if Nat.even n then TransportError else Json (Some 500) None)
           (fun _ => Returned 0) (one_video 101) (fun _ => Returned 0) (fun _ => 1).

(** A state in which the lease of [healthy] was issued at time 1000. *)
Definition leased (now : Z) : State :=
  {| proxy := lease; proxy_fetch_time := 1000; error_log := [];
     progress_log := None; clock := now; fetches := 1; error_writes := 0; history := [] |}.

Definition download_of (avid : Z) : string :=
  yutto_command avid lease (merge_of avid).

(** Three items: the cover extraction of 101 hangs, the download of 102
    ends with status 1, and 103 is fine. *)
Definition flaky_items : World :=
  world_of (inr [101; 102; 103]) (fun _ => good)
           (fun c => if String.eqb c (download_of 102) then Returned 1 else Returned 0)
           (one_video 101) (fun _ => Threw TimeoutExpired) (fun _ => 1).

(** The first lease is granted; the download of 101 then takes 400
    seconds and the proxy service is gone when the lease is checked
    before 102. *)
Definition lease_lost : World :=
  world_of (inr [101; 102])
           (fun n => match n with O => good | _ => TransportError end)
           (fun _ => Returned 0) (one_video 101) (fun _ => Returned 0)
           (fun ev => match ev with Shell _ => 400 | _ => 1 end).

(** Two items: 101 downloads and leaves one video, the download of 102
    runs into its timeout. *)
Definition timeout_on_102 : World :=
  world_of (inr [101; 102]) (fun _ => good)
           (fun c => if String.eqb c (download_of 102) then Threw TimeoutExpired
                     else Returned 0)
           (one_video 101) (fun _ => Returned 0) (fun _ => 1).

(** One item whose download succeeds and leaves one video, with an
    extraction tool that behaves as [tool] says. *)
Definition one_item (tool : ProcResult) : World :=
  world_of (inr [101]) (fun _ => good) (fun _ => Returned 0)
           (one_video 101) (fun _ => tool) (fun _ => 1).

(** A merge directory with a subdirectory and files of several kinds. *)
Definition nested : World :=
  world_of (inr [101]) (fun _ => good) (fun _ => Returned 0)
           (fun p => [(p, ["a.mp4"; "a.json"; "mp4"]);
                      (p +:+ "/extra", ["b.mp4"; "c.MP4"; "d.mp4.part"])])
           (fun _ => Returned 0) (fun _ => 1).

(** As [lease_lost], but the proxy service later answers with status
    200 and an entry that has no [ip]. *)
Definition lease_malformed : World :=
  world_of (inr [101; 102])
           (fun n => match n with
                     | O => good
                     | _ => Json (Some 200) (Some [{| ip := None; port := Some "8080" |}])
                     end)
           (fun _ => Returned 0) (one_video 101) (fun _ => Returned 0)
           (fun ev => match ev with Shell _ => 400 | _ => 1 end).

End Scenario.

(** ** Notions for the further properties *)

(** The lines of [progress_log.txt], none while the file is missing. *)
Definition progress_lines (st : State) : list string := default [] (progress_log st).

(** The other two directories of an item. *)
Definition audio_dir (w : World) (avid : Z) : string :=
  PosixPath.join (output_dir w) [PyStr.of_Z avid; "audio_only"].

Definition video_dir (w : World) (avid : Z) : string :=
  PosixPath.join (output_dir w) [PyStr.of_Z avid; "video_only"].

Definition item_dirs (w : World) (avid : Z) : list string :=
  [merge_dir w avid; audio_dir w avid; video_dir w avid].

(** From [st] to [st'] the history and the two ledgers were only
    appended to, with calls satisfying [Pev], error lines satisfying
    [Perr] and progress lines satisfying [Pprog]. *)
Record writes (Pev : Event → Prop) (Perr Pprog : string → Prop)
    (st st' : State) : Prop := {
  writes_history :
    ∃ evs, history st' = (history st ++ evs)%list ∧ Forall Pev evs;
  writes_errors :
    ∃ new, error_log st' = (error_log st ++ new)%list ∧ Forall Perr new;
  writes_progress :
    ∃ new, progress_lines st' = (progress_lines st ++ new)%list ∧ Forall Pprog new
}.

(** The calls that a run over the work list [l] may make. *)
Definition run_event (w : World) (l : list Z) (ev : Event) : Prop :=
  match ev with
  | Get url => url = ip_url w
  | Sleep secs => secs = 5
  | Makedirs path => ∃ avid, avid ∈ l ∧ path ∈ item_dirs w avid
  | Shell command =>
      ∃ avid p, avid ∈ l ∧ command = yutto_command avid p (merge_dir w avid)
  | Exec argv =>
      ∃ avid v, avid ∈ l ∧ v ∈ video_paths (walk w (merge_dir w avid)) ∧
                argv = ffmpeg_command v
  | Input => True
  end.

(** The lines that a run over [l] may add to the error ledger: an item
    of [l], or the name of one of its videos. *)
Definition run_error_line (w : World) (l : list Z) (line : string) : Prop :=
  (∃ avid, avid ∈ l ∧ line = PyStr.of_Z avid) ∨
  (∃ avid v, avid ∈ l ∧ v ∈ video_paths (walk w (merge_dir w avid)) ∧
             line = PosixPath.basename v).

(** The lines that a run over [l] may add to the progress ledger. *)
Definition run_progress_line (l : list Z) (line : string) : Prop :=
  ∃ avid, avid ∈ l ∧ line = PyStr.of_Z avid.

(** What one item needs from a relation [R] for its turn to keep [R]:
    its calls are [allowed], its error lines are [label_ok], and writing
    it to the progress ledger keeps [R]. *)
Definition item_tracked (w : World) (R : relation State)
    (allowed : Event → Prop) (label_ok : string → Prop) (avid : Z) : Prop :=
  (∀ path, path ∈ item_dirs w avid → allowed (Makedirs path)) ∧
  (∀ p, allowed (Shell (yutto_command avid p (merge_dir w avid)))) ∧
  (∀ v, v ∈ video_paths (walk w (merge_dir w avid)) →
        allowed (Exec (ffmpeg_command v)) ∧ label_ok (PosixPath.basename v)) ∧
  allowed Input ∧
  label_ok (PyStr.of_Z avid) ∧
  preserves R (log_progress avid).

(** The state after a request that was answered, before anything else
    is done with the answer. *)
Definition asked (w : World) (url : string) (st : State) : State :=
  {| proxy := proxy st; proxy_fetch_time := proxy_fetch_time st;
     error_log := error_log st; progress_log := progress_log st;
     clock := clock st + elapsed w (Get url);
     fetches := S (fetches st); error_writes := error_writes st;
     history := (history st ++ [Get url])%list |}.

(** An answer on which an attempt of [get_ip] fails: one of
    [failed_reply], or status 200 without a first entry in [data]. *)
Definition unusable_reply (r : Reply) : Prop :=
  failed_reply r ∨ r = Json (Some 200) None ∨ r = Json (Some 200) (Some []).

(** ** [__init__] and the entry point *)

(** The three files that [__init__] places in the output directory. *)
Definition error_log_path (output_dir : string) : string :=
  PosixPath.join output_dir ["error_log.txt"].

Definition progress_log_path (output_dir : string) : string :=
  PosixPath.join output_dir ["progress_log.txt"].

Definition log_file_path (output_dir batch_name : string) : string :=
  PosixPath.join output_dir [batch_name +:+ "_log.txt"].

(** The output directory that the entry point derives from its
    argument. *)
Definition main_output_dir (batch_name : string) : string :=
  "small_output/" +:+ batch_name.

(** The progress ledger is left as it is. *)
Definition same_progress (st st' : State) : Prop :=
  progress_log st' = progress_log st.

(** The state after a series of calls outside the process that change
    nothing but the history and the clock. *)
Definition after_calls (w : World) (evs : list Event) (st : State) : State :=
  foldl (fun s ev => (emit w ev s).2) st evs.

(** The calls of the extraction tool on a list of videos. *)
Definition cover_calls (videos : list string) : list Event :=
  (fun v => Exec (ffmpeg_command v)) <$> videos.

(** ** More sample worlds *)

Module Cases.

(** The proxy service fails once, answers without data once, and then
    grants a lease. *)
Definition slow_service : World :=
  Scenario.world_of (inr [101])
    (fun n => match n with
              | O => TransportError
              | S O => Json (Some 200) None
              | _ => Scenario.good
              end)
    (fun _ => Returned 0) (Scenario.one_video 101) (fun _ => Returned 0) (fun _ => 1).

(** The proxy service always answers with status 200 and no entry. *)
Definition empty_service : World :=
  Scenario.world_of (inr [101]) (fun _ => Json (Some 200) (Some []))
    (fun _ => Returned 0) (Scenario.one_video 101) (fun _ => Returned 0) (fun _ => 1).

(** Standard input is closed: [input()] raises [EOFError]. *)
Definition closed_stdin : World :=
  {| ip_url := "http://issuer/get"; output_dir := "small_output/b";
     csv_avid := inr [7]; reply := fun _ => Scenario.good;
     makedirs := fun _ => None; shell := fun _ => Returned 0;
     walk := fun _ => []; exec := fun _ => Returned 0;
     operator := fun _ => Some EOFError; error_write := fun _ => None;
     elapsed := fun _ => 1 |}.

(** The directory [audio_only] of an item cannot be made. *)
Definition no_audio_dir : World :=
  {| ip_url := "http://issuer/get"; output_dir := "small_output/b";
     csv_avid := inr [101]; reply := fun _ => Scenario.good;
     makedirs := fun p => if PyStr.endswith p "audio_only" then Some OSError else None;
     shell := fun _ => Returned 0;
     walk := Scenario.one_video 101; exec := fun _ => Returned 0;
     operator := fun _ => None; error_write := fun _ => None;
     elapsed := fun _ => 1 |}.

(** The ledger of an earlier run that completed 101. *)
Definition resumed : State := start [] (Some ["101"]) 0.

(** The bytes of that ledger as this program writes them, and as an
    editor may leave them: with a blank line, and without the last line
    terminator. *)
Definition resumed_text : string := "101" +:+ String LF "".

Definition edited_text : string := "101" +:+ String CR (String LF (String LF "")).

Definition unterminated_text : string := "101".

(** The error ledger cannot be written (a full disk, a file without
    write permission), and every download ends with status 1. *)
Definition full_disk : World :=
  {| ip_url := "http://issuer/get"; output_dir := "small_output/b";
     csv_avid := inr [101; 102]; reply := fun _ => Scenario.good;
     makedirs := fun _ => None; shell := fun _ => Returned 1;
     walk := fun _ => []; exec := fun _ => Returned 0;
     operator := fun _ => None; error_write := fun _ => Some OSError;
     elapsed := fun _ => 1 |}.

(** The error ledger cannot be written, an item has one video, and the
    extraction tool ends with status 1. *)
Definition full_disk_cover : World :=
  {| ip_url := "http://issuer/get"; output_dir := "small_output/b";
     csv_avid := inr [101]; reply := fun _ => Scenario.good;
     makedirs := fun _ => None; shell := fun _ => Returned 0;
     walk := Scenario.one_video 101; exec := fun _ => Returned 1;
     operator := fun _ => None; error_write := fun _ => Some OSError;
     elapsed := fun _ => 1 |}.

(** A file system that takes no write: no directory can be made and
    the error ledger cannot be written. *)
Definition read_only : World :=
  {| ip_url := "http://issuer/get"; output_dir := "small_output/b";
     csv_avid := inr [101]; reply := fun _ => Scenario.good;
     makedirs := fun _ => Some OSError; shell := fun _ => Returned 0;
     walk := fun _ => []; exec := fun _ => Returned 0;
     operator := fun _ => None; error_write := fun _ => Some OSError;
     elapsed := fun _ => 1 |}.

(** Standard input is closed and the error ledger cannot be written. *)
Definition closed_stdin_full_disk : World :=
  {| ip_url := "http://issuer/get"; output_dir := "small_output/b";
     csv_avid := inr [7]; reply := fun _ => Scenario.good;
     makedirs := fun _ => None; shell := fun _ => Returned 0;
     walk := fun _ => []; exec := fun _ => Returned 0;
     operator := fun _ => Some EOFError; error_write := fun _ => Some OSError;
     elapsed := fun _ => 1 |}.

(** One item whose download ends as [download] says, with an error
    ledger that takes the writes that [disk] lets through. *)
Definition disk_world (download : ProcResult) (disk : nat → option Exc) : World :=
  {| ip_url := "http://issuer/get"; output_dir := "small_output/b";
     csv_avid := inr [101]; reply := fun _ => Scenario.good;
     makedirs := fun _ => None; shell := fun _ => download;
     walk := fun _ => []; exec := fun _ => Returned 0;
     operator := fun _ => None; error_write := disk;
     elapsed := fun _ => 1 |}.

(** The first write to the error ledger is refused, the later ones go
    through. *)
Definition refused_once (n : nat) : option Exc :=
  match n with O => Some OSError | _ => None end.

(** Two videos in the merge directory; the extraction tool hangs on
    the first one. *)
Definition first_cover_hangs : World :=
  Scenario.world_of (inr [101]) (fun _ => Scenario.good) (fun _ => Returned 0)
    (fun p => [(p, ["a.mp4"; "b.mp4"])])
    (fun argv => if String.eqb (default "" (argv !! 4%nat))
                                "small_output/b/101/merge/a.mp4"
                 then Threw TimeoutExpired else Returned 0)
    (fun _ => 1).

End Cases.

(** * Properties *)

(** Unfolds the plumbing of the monad, leaving the calls of the program. *)
Ltac mstep :=
  cbv beta iota zeta delta
    [mbind mret M_mbind M_mret M_bind M_ret get_state modify raise sys_exit
     lift_option try_except].

(** ** Strings and paths *)

Example strip_line : PyStr.strip (" 42" +:+ String "010" "") = "42".
Proof. reflexivity. Qed.

Example int_examples :
  PyStr.int "42" = Some 42 /\ PyStr.int " -7 " = Some (-7) /\
  PyStr.int "1_000" = Some 1000 /\ PyStr.int "" = None /\
  PyStr.int "abc" = None /\ PyStr.int "1__0" = None /\ PyStr.int "12.5" = None.
Proof. repeat split; reflexivity. Qed.

Example of_Z_examples :
  PyStr.of_Z 101 = "101" /\ PyStr.of_Z 0 = "0" /\ PyStr.of_Z (-5) = "-5".
Proof. repeat split; reflexivity. Qed.

Example splitext_examples :
  PosixPath.splitext "out/5/merge/a.b.mp4" = ("out/5/merge/a.b", ".mp4") /\
  PosixPath.splitext "out/5/merge/.mp4" = ("out/5/merge/.mp4", "") /\
  PosixPath.splitext "out.d/clip" = ("out.d/clip", "") /\
  PosixPath.basename "out/5/merge/a.mp4" = "a.mp4" /\
  PosixPath.join "out" ["5"; "merge"] = "out/5/merge".
Proof. repeat split; reflexivity. Qed.

(** ** The work list *)

Section WorkList.

Implicit Types (l : list Z) (seen : gset Z).

Lemma unique_from_elem seen l x :
  x ∈ unique_from seen l ↔ x ∈ l ∧ x ∉ seen.
Proof.
  revert seen. induction l as [|a l IH]; intros seen; simpl.
  - set_solver.
  - destruct (decide (a ∈ seen)) as [Hin|Hout].
    + rewrite IH. set_solver.
    + rewrite !elem_of_cons, IH. split.
      * intros [->|[? ?]]; [tauto|]. split; [tauto|set_solver].
      * intros [[->|?] ?]; [tauto|]. destruct (decide (x = a)); [tauto|].
        right. split; [done|set_solver].
Qed.

Lemma unique_from_NoDup seen l : NoDup (unique_from seen l).
Proof.
  revert seen. induction l as [|a l IH]; intros seen; simpl.
  - constructor.
  - destruct (decide (a ∈ seen)); [apply IH|].
    constructor; [|apply IH].
    rewrite unique_from_elem. set_solver.
Qed.

Lemma unique_from_app seen l1 l2 :
  unique_from seen (l1 ++ l2) =
  (unique_from seen l1 ++ unique_from (list_to_set l1 ∪ seen) l2)%list.
Proof.
  revert seen. induction l1 as [|a l1 IH]; intros seen; simpl.
  - f_equal. set_solver.
  - destruct (decide (a ∈ seen)) as [Hin|Hout].
    + rewrite IH. do 2 f_equal. set_solver.
    + simpl. rewrite IH. do 3 f_equal. set_solver.
Qed.

Lemma first_index_split l1 y l2 :
  y ∉ l1 → first_index y (l1 ++ y :: l2) = Some (length l1).
Proof.
  intros Hy. unfold first_index.
  assert (list_find (fun z => z = y) (l1 ++ y :: l2) = Some (length l1, y)) as ->; [|done].
  apply list_find_Some. split_and!.
  - by rewrite list_lookup_middle.
  - done.
  - intros j z Hj Hlt ->. apply Hy.
    rewrite lookup_app_l in Hj by done. by eapply list_elem_of_lookup_2.
Qed.

Lemma first_index_bound l1 l2 x :
  x ∈ l1 → ∃ i, first_index x (l1 ++ l2) = Some i ∧ (i < length l1)%nat.
Proof.
  intros Hx. apply list_elem_of_split_l in Hx as (a & b & -> & Hx).
  exists (length a). rewrite <- app_assoc. simpl.
  rewrite first_index_split by done. split; [done|].
  rewrite length_app. simpl. lia.
Qed.

(** Positions in the deduplicated list follow the positions of the
    first occurrences in the column. *)
Lemma unique_first_seen l i j x y :
  unique l !! i = Some x → unique l !! j = Some y → (i < j)%nat →
  ∃ i' j', first_index x l = Some i' ∧ first_index y l = Some j' ∧ (i' < j')%nat.
Proof.
  intros Hi Hj Hlt.
  assert (y ∈ l) as Hy.
  { apply list_elem_of_lookup_2 in Hj. apply unique_from_elem in Hj. tauto. }
  apply list_elem_of_split_l in Hy as (l1 & l2 & -> & Hy).
  unfold unique in *. rewrite unique_from_app in Hi, Hj. simpl in Hi, Hj.
  destruct (decide (y ∈ list_to_set l1 ∪ ∅)) as [Hin|_]; [set_solver|].
  assert (j = length (unique_from ∅ l1)) as ->.
  { eapply NoDup_lookup; [| exact Hj | by rewrite list_lookup_middle].
    pose proof (unique_from_NoDup ∅ (l1 ++ y :: l2)) as Hnd.
    rewrite unique_from_app in Hnd. simpl in Hnd.
    destruct (decide (y ∈ list_to_set l1 ∪ ∅)); [set_solver|done]. }
  rewrite lookup_app_l in Hi by done.
  apply list_elem_of_lookup_2, unique_from_elem in Hi as [Hx _].
  destruct (first_index_bound l1 (y :: l2) x Hx) as (i' & Hi' & Hb).
  exists i', (length l1). by rewrite first_index_split.
Qed.

End WorkList.

(** C6: the work list is the source column without its repetitions, in
    the order in which the values are first seen, and the remaining work
    is the work list without the completed items, in that same order;
    the column [5, 3, 5, 3, 7] with an empty ledger leaves [5, 3, 7]. *)
Theorem C6_work_list_first_seen_order (column : list Z) (completed : gset Z) :
  let avid_list := unique column in
  let remaining := remaining_avids avid_list completed in
  NoDup avid_list ∧
  (∀ x, x ∈ avid_list ↔ x ∈ column) ∧
  (∀ i j x y,
     avid_list !! i = Some x → avid_list !! j = Some y → (i < j)%nat →
     ∃ i' j', first_index x column = Some i' ∧
              first_index y column = Some j' ∧ (i' < j')%nat) ∧
  remaining `sublist_of` avid_list ∧
  (∀ x, x ∈ remaining ↔ x ∈ avid_list ∧ x ∉ completed) ∧
  remaining_avids (unique [5; 3; 5; 3; 7]) ∅ = [5; 3; 7].
Proof.
  intros avid_list remaining. subst avid_list remaining. split_and!.
  - apply unique_from_NoDup.
  - intros x. unfold unique. rewrite unique_from_elem. set_solver.
  - apply unique_first_seen.
  - apply sublist_filter.
  - intros x. unfold remaining_avids. rewrite list_elem_of_filter. tauto.
  - reflexivity.
Qed.

Lemma C6_work_list_first_seen_order_witness :
  ∃ i' j', first_index 3 [5; 3; 5; 3; 7] = Some i' ∧
           first_index 7 [5; 3; 5; 3; 7] = Some j' ∧ (i' < j')%nat.
Proof.
  destruct (C6_work_list_first_seen_order [5; 3; 5; 3; 7] ∅)
    as (_ & _ & Horder & _).
  apply (Horder 1%nat 2%nat 3 7); [reflexivity | reflexivity | lia].
Defined.

(** ** The progress ledger *)

Lemma parse_progress_Some lines s :
  parse_progress lines = Some s →
  ∀ n, n ∈ s ↔
       ∃ line, line ∈ lines ∧ nonblank line ∧ PyStr.int (PyStr.strip line) = Some n.
Proof.
  unfold nonblank. revert s. induction lines as [|line rest IH]; intros s; simpl.
  - intros [= <-] n. split; [set_solver|]. intros (l & Hl & _). by apply elem_of_nil in Hl.
  - destruct (String.eqb_spec (PyStr.strip line) "") as [Hblank|Hfull].
    + intros Hs n. rewrite (IH s Hs). split.
      * intros (l & ? & ? & ?). exists l. by rewrite elem_of_cons; auto.
      * intros (l & [->|?]%elem_of_cons & ? & ?); [done|]. by exists l.
    + destruct (PyStr.int (PyStr.strip line)) as [m|] eqn:Hm; [|done]. simpl.
      destruct (parse_progress rest) as [s'|]; [|done]. simpl.
      intros [= <-] n. rewrite elem_of_union, elem_of_singleton, (IH s' eq_refl). split.
      * intros [->|(l & ? & ? & ?)].
        -- exists line. by rewrite elem_of_cons; auto.
        -- exists l. by rewrite elem_of_cons; auto.
      * intros (l & [->|?]%elem_of_cons & ? & Hn).
        -- left. congruence.
        -- right. by exists l.
Qed.

Lemma parse_progress_None lines :
  parse_progress lines = None ↔
  ∃ line, line ∈ lines ∧ nonblank line ∧ PyStr.int (PyStr.strip line) = None.
Proof.
  unfold nonblank. induction lines as [|line rest IH]; simpl.
  - split; [done|]. intros (l & Hl & _). by apply elem_of_nil in Hl.
  - destruct (String.eqb_spec (PyStr.strip line) "") as [Hblank|Hfull].
    + rewrite IH. split.
      * intros (l & ? & ? & ?). exists l. by rewrite elem_of_cons; auto.
      * intros (l & [->|?]%elem_of_cons & ? & ?); [done|]. by exists l.
    + destruct (PyStr.int (PyStr.strip line)) as [m|] eqn:Hm; simpl.
      * destruct (parse_progress rest) as [s'|] eqn:Hrest; simpl.
        -- split; [done|]. intros (l & [->|Hl]%elem_of_cons & Hnb & Hn); [congruence|].
           destruct IH as [_ IH]. discriminate IH. by exists l.
        -- split; [|done]. intros _. destruct IH as [(l & ? & ? & ?) _]; [done|].
           exists l. by rewrite elem_of_cons; auto.
      * split; [|done]. intros _. exists line. by rewrite elem_of_cons; auto.
Qed.

(** C8: without a progress file the completed set is empty; with one,
    it is the set of the integers read from the non-blank lines, one per
    line, blank lines being skipped. *)
Theorem C8_load_progress_set :
  (∀ st, progress_log st = None → load_progress st = (Ok ∅, st)) ∧
  (∀ st lines,
     progress_log st = Some lines →
     (∀ line, line ∈ lines → nonblank line →
              is_Some (PyStr.int (PyStr.strip line))) →
     ∃ s, load_progress st = (Ok s, st) ∧
          ∀ n, n ∈ s ↔
               ∃ line, line ∈ lines ∧ nonblank line ∧
                       PyStr.int (PyStr.strip line) = Some n).
Proof.
  split.
  - intros st Hnone. unfold load_progress. mstep. by rewrite Hnone.
  - intros st lines Hsome Hall. unfold load_progress. mstep. rewrite Hsome.
    destruct (parse_progress lines) as [s|] eqn:Hparse.
    + exists s. split; [done|]. by apply parse_progress_Some.
    + apply parse_progress_None in Hparse as (line & Hin & Hnb & Hbad).
      destruct (Hall line Hin Hnb) as [n Hn]. congruence.
Qed.

Lemma C8_load_progress_set_witness :
  ∃ s, load_progress (start [] (Some ["101"; ""; " 7 "]) 0)
       = (Ok s, start [] (Some ["101"; ""; " 7 "]) 0) ∧
       ∀ n, n ∈ s ↔
            ∃ line, line ∈ ["101"; ""; " 7 "] ∧ nonblank line ∧
                    PyStr.int (PyStr.strip line) = Some n.
Proof.
  destruct C8_load_progress_set as [_ Hfile].
  apply Hfile; [reflexivity|].
  intros line Hin Hnb. unfold nonblank in Hnb.
  repeat (apply elem_of_cons in Hin as [->|Hin]); [by eexists | done | by eexists |].
  by apply elem_of_nil in Hin.
Defined.

Lemma load_progress_corrupt st lines :
  progress_log st = Some lines → parse_progress lines = None →
  load_progress st = (Raise ValueError, st).
Proof. intros Hlog Hbad. unfold load_progress. mstep. by rewrite Hlog, Hbad. Qed.

Lemma load_progress_cases st :
  (∃ s, load_progress st = (Ok s, st)) ∨ load_progress st = (Raise ValueError, st).
Proof.
  unfold load_progress. mstep. destruct (progress_log st) as [lines|]; [|by eauto].
  destruct (parse_progress lines); by eauto.
Qed.

(** C7, as the code has it: a progress ledger with a non-blank line that
    is not an integer ends the whole run with exit status 1, before the
    proxy is asked for and before any item is processed; the state is
    left as it was. *)
Theorem C7_corrupt_ledger_ends_run (w : World) (st : State) (lines : list string)
    (line : string) :
  progress_log st = Some lines →
  line ∈ lines → nonblank line → PyStr.int (PyStr.strip line) = None →
  run w st = (Exit 1, st).
Proof.
  intros Hlog Hin Hnb Hbad.
  assert (parse_progress lines = None) as Hparse.
  { apply parse_progress_None. by exists line. }
  unfold run, run_body, pd_read_csv. mstep.
  destruct (csv_avid w) as [e|column].
  - by destruct e.
  - by rewrite (load_progress_corrupt st lines Hlog Hparse).
Qed.

Lemma C7_corrupt_ledger_ends_run_witness :
  run Scenario.healthy Scenario.damaged_ledger = (Exit 1, Scenario.damaged_ledger).
Proof.
  apply (C7_corrupt_ledger_ends_run _ _ ["101"; "abc"] "abc").
  - reflexivity.
  - apply elem_of_cons. right. apply elem_of_cons. by left.
  - unfold nonblank. by vm_compute.
  - reflexivity.
Defined.

(** C7 as the specification words it fails: with a ledger whose second
    line reads [abc], a run in a world where everything else works
    exits with status 1 and processes nothing. *)
Lemma C7_counterexample :
  PyStr.int (PyStr.strip "abc") = None ∧
  exit_code (run Scenario.healthy Scenario.damaged_ledger).1 = 1 ∧
  history (run Scenario.healthy Scenario.damaged_ledger).2 = [] ∧
  ¬ ∃ st', run Scenario.healthy Scenario.damaged_ledger = (Ok tt, st').
Proof.
  split_and!; [reflexivity | reflexivity | reflexivity |].
  intros [st' Hrun]. vm_compute in Hrun. discriminate Hrun.
Qed.

(** ** The proxy lease *)

Lemma failed_attempt_step w url st :
  failed_reply (reply w (fetches st)) →
  try_except (attempt_body w url) (fun _ => sleep w 5;; mret None) st
  = (Ok None, failed_attempt w url st).
Proof.
  intros Hfail. unfold attempt_body, requests_get, json_loads, sleep, emit, first_entry.
  mstep. unfold failed_attempt.
  destruct (reply w (fetches st)) as [| |ret data]; cbn in *.
  - by rewrite <- !app_assoc, <- !Z.add_assoc.
  - by rewrite <- !app_assoc, <- !Z.add_assoc.
  - destruct ret as [code|]; cbn.
    + destruct (code =? 200) eqn:Hcode; cbn.
      * apply Z.eqb_eq in Hcode. congruence.
      * by rewrite <- !app_assoc, <- !Z.add_assoc.
    + by rewrite <- !app_assoc, <- !Z.add_assoc.
Qed.

Lemma get_ip_loop_exhausted w url n st :
  (∀ k, (k < n)%nat → failed_reply (reply w (fetches st + k))) →
  get_ip_loop w n url st = (Exit 1, Nat.iter n (failed_attempt w url) st).
Proof.
  revert st. induction n as [|n IH]; intros st Hfail.
  - reflexivity.
  - rewrite Nat.iter_succ_r. simpl get_ip_loop.
    change (get_ip_loop w (S n) url st) with
      ((try_except (attempt_body w url) (fun _ => sleep w 5;; mret None) ≫=
        (fun b => match b with Some data => mret data | None => get_ip_loop w n url end)) st).
    unfold mbind at 1. unfold M_mbind, M_bind.
    rewrite failed_attempt_step.
    + apply IH. intros k Hk.
      replace (fetches (failed_attempt w url st) + k)%nat
        with (fetches st + S k)%nat by (simpl; lia).
      apply Hfail. lia.
    + specialize (Hfail 0%nat). rewrite Nat.add_0_r in Hfail. apply Hfail. lia.
Qed.

(** ** How the state evolves *)

#[export] Instance grows_preorder : PreOrder grows.
Proof.
  split.
  - intros st. by split.
  - intros a b c [] []. split; try (etransitivity; eassumption).
Qed.

#[export] Instance same_ledgers_preorder : PreOrder same_ledgers.
Proof.
  split.
  - by intros st.
  - intros a b c [? ?] [? ?]. split; congruence.
Qed.

Section Combinators.

Context (R : relation State) `{!PreOrder R} {A B : Type}.

Lemma preserves_ret (a : A) : preserves R (mret a : M A).
Proof. intros st. reflexivity. Qed.

Lemma preserves_raise (e : Exc) : preserves R (raise e : M A).
Proof. intros st. reflexivity. Qed.

Lemma preserves_exit (code : Z) : preserves R (sys_exit code : M A).
Proof. intros st. reflexivity. Qed.

Lemma preserves_lift_option (e : Exc) (o : option A) :
  preserves R (lift_option e o).
Proof. destruct o; intros st; reflexivity. Qed.

Lemma preserves_get_state : preserves R get_state.
Proof. intros st. reflexivity. Qed.

Lemma preserves_bind (c : M A) (f : A → M B) :
  preserves R c → (∀ a, preserves R (f a)) → preserves R (c ≫= f).
Proof.
  intros Hc Hf st. specialize (Hc st). mstep.
  destruct (c st) as [[a|e|code] st1]; simpl in *; [|done..].
  etransitivity; [exact Hc | apply Hf].
Qed.

Lemma preserves_try_except (c : M A) (h : Exc → M A) :
  preserves R c → (∀ e, preserves R (h e)) → preserves R (try_except c h).
Proof.
  intros Hc Hh st. specialize (Hc st). mstep.
  destruct (c st) as [[a|e|code] st1]; simpl in *; [done| |done].
  etransitivity; [exact Hc | apply Hh].
Qed.

(** The state at the end of [c ≫= f] is reached from the state at the
    end of [c]. *)
Lemma bind_from (c : M A) (f : A → M B) st :
  (∀ a, preserves R (f a)) → R (c st).2 ((c ≫= f) st).2.
Proof.
  intros Hf. mstep.
  destruct (c st) as [[a|e|code] st1]; simpl; [apply Hf|reflexivity..].
Qed.

Lemma try_except_from (c : M A) (h : Exc → M A) st :
  (∀ e, preserves R (h e)) → R (c st).2 (try_except c h st).2.
Proof.
  intros Hh. mstep.
  destruct (c st) as [[a|e|code] st1]; simpl; [reflexivity|apply Hh|reflexivity].
Qed.

Lemma never_exits_ret (a : A) : never_exits (mret a : M A).
Proof. by intros st code. Qed.

Lemma never_exits_raise (e : Exc) : never_exits (raise e : M A).
Proof. by intros st code. Qed.

Lemma never_exits_lift_option (e : Exc) (o : option A) :
  never_exits (lift_option e o).
Proof. by destruct o; intros st code. Qed.

Lemma never_exits_bind (c : M A) (f : A → M B) :
  never_exits c → (∀ a, never_exits (f a)) → never_exits (c ≫= f).
Proof.
  intros Hc Hf st code. specialize (Hc st). mstep.
  destruct (c st) as [[a|e|code'] st1]; simpl in *; [apply Hf|done|].
  intros [= <-]. by apply (Hc code').
Qed.

Lemma never_exits_try_except (c : M A) (h : Exc → M A) :
  never_exits c → (∀ e, never_exits (h e)) → never_exits (try_except c h).
Proof.
  intros Hc Hh st code. specialize (Hc st). mstep.
  destruct (c st) as [[a|e|code'] st1]; simpl in *; [done|apply Hh|].
  intros [= <-]. by apply (Hc code').
Qed.

(** What [try ... except Exception] lets through: an exit is not caught. *)
Lemma try_except_exit (c : M A) (h : Exc → M A) st code st' :
  c st = (Exit code, st') → try_except c h st = (Exit code, st').
Proof. intros Hc. unfold try_except. by rewrite Hc. Qed.

End Combinators.

Lemma preserves_modify (R : relation State) (f : State → State) :
  (∀ st, R st (f st)) → preserves R (modify f).
Proof. intros Hf st. apply Hf. Qed.

Lemma never_exits_modify (f : State → State) : never_exits (modify f).
Proof. by intros st code. Qed.

Lemma never_exits_get_state : never_exits get_state.
Proof. by intros st code. Qed.

Create HintDb flow.

#[export] Hint Resolve grows_preorder same_ledgers_preorder
  preserves_ret preserves_raise preserves_exit preserves_lift_option
  preserves_bind preserves_try_except preserves_get_state
  never_exits_ret never_exits_raise never_exits_lift_option never_exits_bind
  never_exits_try_except never_exits_modify never_exits_get_state : flow.

Section Methods.

Context (w : World).

Lemma stable_emit ev : stable (emit w ev).
Proof.
  apply preserves_modify. intros st. split; simpl; try done.
  by apply prefix_app_r.
Qed.

Lemma off_ledger_emit ev : off_ledger (emit w ev).
Proof. by apply preserves_modify. Qed.

(** The two ways out of [log_error]. *)
Lemma log_error_eq label st :
  log_error w label st =
  match error_write w (error_writes st) with
  | Some e => (Raise e, refused st)
  | None => (Ok tt, logged label st)
  end.
Proof. unfold log_error. mstep. by destruct (error_write w (error_writes st)). Qed.

Lemma log_error_written label st :
  error_write w (error_writes st) = None →
  log_error w label st = (Ok tt, logged label st).
Proof. intros H. by rewrite log_error_eq, H. Qed.

Lemma log_error_refused label st e :
  error_write w (error_writes st) = Some e →
  log_error w label st = (Raise e, refused st).
Proof. intros H. by rewrite log_error_eq, H. Qed.

Lemma preserves_log_error (R : relation State) label :
  (∀ st, R st (refused st)) → (∀ st, R st (logged label st)) →
  preserves R (log_error w label).
Proof.
  intros Hr Hl st. rewrite log_error_eq.
  destruct (error_write w (error_writes st)); simpl; auto.
Qed.

Lemma stable_log_error label : stable (log_error w label).
Proof.
  apply preserves_log_error; intros st; split; simpl; try done.
  by apply prefix_app_r.
Qed.

Lemma stable_log_progress avid : stable (log_progress avid).
Proof.
  apply preserves_modify. intros st. split; simpl; try done.
  by apply prefix_app_r.
Qed.

Lemma never_exits_emit ev : never_exits (emit w ev).
Proof. apply never_exits_modify. Qed.

Lemma never_exits_log_error label : never_exits (log_error w label).
Proof.
  intros st code. rewrite log_error_eq.
  by destruct (error_write w (error_writes st)).
Qed.

Lemma never_exits_log_progress avid : never_exits (log_progress avid).
Proof. apply never_exits_modify. Qed.

Hint Resolve stable_emit off_ledger_emit stable_log_error stable_log_progress
  never_exits_emit never_exits_log_error never_exits_log_progress : flow.

(** *** The lease manager *)

Section LeaseManager.

(** The lease manager keeps every relation that its four kinds of
    steps keep: a request to the service, a pause of five seconds, the
    count of the requests, the assignment of the lease. *)
Context (R : relation State) `{!PreOrder R}.
Context (url : string).
Context (R_get : preserves R (emit w (Get url))).
Context (R_sleep : preserves R (emit w (Sleep 5))).
Context (R_fetch : ∀ st,
  R st {| proxy := proxy st; proxy_fetch_time := proxy_fetch_time st;
          error_log := error_log st; progress_log := progress_log st;
          clock := clock st; fetches := S (fetches st); error_writes := error_writes st;
          history := history st |}).
Context (R_lease : ∀ st p t,
  R st {| proxy := p; proxy_fetch_time := t;
          error_log := error_log st; progress_log := progress_log st;
          clock := clock st; fetches := fetches st; error_writes := error_writes st;
          history := history st |}).

Hint Resolve R_get R_sleep : flow.

Lemma preserves_requests_get : preserves R (requests_get w url).
Proof.
  unfold requests_get. apply preserves_bind; [done|auto with flow|]. intros st0.
  apply preserves_bind; [done|auto with flow|]. intros _.
  apply preserves_bind; [done| |].
  - apply preserves_modify. intros st. apply R_fetch.
  - intros _. destruct (reply w (fetches st0)); auto with flow.
Qed.

Lemma preserves_first_entry data : preserves R (first_entry data).
Proof. unfold first_entry. auto with flow. Qed.

Lemma preserves_sleep : preserves R (sleep w 5).
Proof. apply R_sleep. Qed.

Hint Resolve preserves_requests_get preserves_first_entry preserves_sleep : flow.

Lemma preserves_attempt_tail r :
  preserves R
    ('(ret, data) ← json_loads r;
     code ← lift_option KeyError ret;
     if code =? 200 then first_entry data;; mret (Some data)
     else sleep w 5;; mret None).
Proof.
  unfold json_loads. apply preserves_bind; [done|destruct r; auto with flow|].
  intros [ret data]. apply preserves_bind; [done|auto with flow|].
  intros code. destruct (code =? 200); auto with flow.
Qed.

Lemma preserves_attempt_body : preserves R (attempt_body w url).
Proof.
  unfold attempt_body. apply preserves_bind; [done|auto with flow|].
  apply preserves_attempt_tail.
Qed.

Lemma preserves_get_ip_loop n : preserves R (get_ip_loop w n url).
Proof.
  induction n as [|n IH]; simpl; [auto with flow|].
  apply preserves_bind; [done| |].
  - apply preserves_try_except; [done|apply preserves_attempt_body | auto with flow].
  - intros [data|]; auto with flow.
Qed.

Lemma preserves_get_ip_tail data :
  preserves R
    (e1 ← first_entry data;
     a ← lift_option KeyError (ip e1);
     e2 ← first_entry data;
     p ← lift_option KeyError (port e2);
     let proxy_url := "http://" +:+ a +:+ ":" +:+ p in
     modify (fun st =>
       {| proxy := Some proxy_url; proxy_fetch_time := clock st;
          error_log := error_log st; progress_log := progress_log st;
          clock := clock st; fetches := fetches st; error_writes := error_writes st; history := history st |});;
     mret proxy_url).
Proof.
  do 4 (apply preserves_bind; [done|auto with flow|]; intros ?).
  apply preserves_bind; [done| |auto with flow].
  apply preserves_modify. intros st. apply R_lease.
Qed.

Lemma preserves_get_ip : preserves R (get_ip w url).
Proof.
  unfold get_ip. apply preserves_bind; [done|apply preserves_get_ip_loop|].
  apply preserves_get_ip_tail.
Qed.

Context (Hurl : url = ip_url w).

Lemma preserves_check_ip_validity : preserves R (check_ip_validity w).
Proof.
  unfold check_ip_validity. rewrite <- Hurl.
  apply preserves_bind; [done|auto with flow|].
  intros st0. destruct (lease_stale st0); [|auto with flow].
  apply preserves_bind; [done|apply preserves_get_ip|]. intros p.
  apply preserves_modify. intros st.
  pose proof (R_lease st (Some p) (proxy_fetch_time st)) as H. exact H.
Qed.

End LeaseManager.

Lemma stable_get_ip url : stable (get_ip w url).
Proof.
  apply preserves_get_ip;
    [apply _ | apply stable_emit | apply stable_emit | ..];
    intros; split; simpl; try done; lia.
Qed.

Lemma stable_check_ip_validity : stable (check_ip_validity w).
Proof.
  apply preserves_check_ip_validity with (url := ip_url w);
    [apply _ | apply stable_emit | apply stable_emit | .. | done];
    intros; split; simpl; try done; lia.
Qed.

(** The lease manager never writes to a ledger. *)
Lemma off_ledger_check_ip_validity : off_ledger (check_ip_validity w).
Proof.
  apply preserves_check_ip_validity with (url := ip_url w);
    [apply _ | apply off_ledger_emit | apply off_ledger_emit | ..];
    by intros.
Qed.

End Methods.

Section Lease.

Context (w : World).

Lemma requests_get_history url st :
  history (requests_get w url st).2 = (history st ++ [Get url])%list.
Proof.
  unfold requests_get, emit. mstep. by destruct (reply w (fetches st)).
Qed.

Lemma get_ip_loop_S n url :
  get_ip_loop w (S n) url =
  try_except (attempt_body w url) (fun _ => sleep w 5;; mret None) ≫=
    (fun b => match b with
              | Some data => mret data
              | None => get_ip_loop w n url
              end).
Proof. reflexivity. Qed.

(** Every call of [get_ip] starts by asking the proxy service. *)
Lemma get_ip_asks url st :
  ∃ rest, history (get_ip w url st).2 = (history st ++ Get url :: rest)%list.
Proof.
  assert (∀ ev, stable (emit w ev)) as Hemit by apply stable_emit.
  assert (∀ st', grows st'
    {| proxy := proxy st'; proxy_fetch_time := proxy_fetch_time st';
       error_log := error_log st'; progress_log := progress_log st';
       clock := clock st'; fetches := S (fetches st'); error_writes := error_writes st';
       history := history st' |}) as Hfetch.
  { intros st'. split; simpl; try done. lia. }
  assert (∀ st' p t, grows st'
    {| proxy := p; proxy_fetch_time := t;
       error_log := error_log st'; progress_log := progress_log st';
       clock := clock st'; fetches := fetches st'; error_writes := error_writes st';
       history := history st' |}) as Hlease.
  { intros st' p t. by split. }
  assert (grows (requests_get w url st).2 (get_ip w url st).2) as Hg.
  { unfold get_ip, max_retries. rewrite get_ip_loop_S.
    etransitivity; [|apply (bind_from grows)].
    - etransitivity; [|apply (bind_from grows)].
      + etransitivity; [|apply (try_except_from grows)].
        * unfold attempt_body. apply (bind_from grows).
          intros r. apply preserves_attempt_tail;
            first [apply _ | done | apply Hemit].
        * intros _. apply preserves_bind; [apply _|apply stable_emit|]. intros _.
          apply preserves_ret; apply _.
      + intros [data|]; [apply preserves_ret; apply _|].
        apply preserves_get_ip_loop; first [apply _ | done | apply Hemit].
    - intros data. apply preserves_get_ip_tail; first [apply _ | done]. }
  destruct Hg as [[rest Hrest] _ _ _]. rewrite requests_get_history in Hrest.
  exists rest. rewrite Hrest. by rewrite <- app_assoc.
Qed.

Lemma get_ip_sets_proxy url st p st' :
  get_ip w url st = (Ok p, st') → proxy st' = Some p.
Proof.
  unfold get_ip. mstep.
  destruct (get_ip_loop w max_retries url st) as [[data|e|code] st1]; [|done..].
  unfold first_entry. mstep.
  destruct data as [l|]; [|done]. destruct (head l) as [e1|]; [|done].
  destruct (ip e1); [|done]. destruct (port e1); [|done].
  by intros [= <- <-].
Qed.

Lemma check_ip_validity_fresh st :
  lease_stale st = false → check_ip_validity w st = (Ok tt, st).
Proof. intros Hfresh. unfold check_ip_validity. mstep. by rewrite Hfresh. Qed.

Lemma check_ip_validity_stale st :
  lease_stale st = true → reacquires w st.
Proof.
  intros Hstale.
  assert (check_ip_validity w st =
          (outcome_unit (get_ip w (ip_url w) st).1, (get_ip w (ip_url w) st).2)) as Heq.
  { unfold check_ip_validity. mstep. rewrite Hstale.
    destruct (get_ip w (ip_url w) st) as [[p|e|code] st'] eqn:Hget; [|done..].
    simpl. apply get_ip_sets_proxy in Hget. destruct st'. simpl in *. by subst. }
  split; [exact Heq|]. rewrite Heq. simpl. apply get_ip_asks.
Qed.

End Lease.

(** C3: when the first five answers of the proxy service all fail,
    [get_ip] asks exactly five times, pauses five seconds after each
    failure, and exits with status 1; so does [run], whatever else the
    world holds. *)
Theorem C3_acquire_gives_up_after_five (w : World) (url : string) (st : State) :
  (∀ k, (k < 5)%nat → failed_reply (reply w (fetches st + k))) →
  ∃ st',
    get_ip w url st = (Exit 1, st') ∧
    fetches st' = (fetches st + 5)%nat ∧
    history st' =
      (history st ++
       [Get url; Sleep 5; Get url; Sleep 5; Get url; Sleep 5;
        Get url; Sleep 5; Get url; Sleep 5])%list ∧
    proxy st' = proxy st ∧
    error_log st' = error_log st ∧
    progress_log st' = progress_log st ∧
    (url = ip_url w → (run w st).1 = Exit 1).
Proof.
  intros Hfail.
  assert (get_ip w url st = (Exit 1, Nat.iter 5 (failed_attempt w url) st)) as Hget.
  { unfold get_ip. mstep. unfold max_retries.
    by rewrite (get_ip_loop_exhausted w url 5 st Hfail). }
  eexists. split; [exact Hget|]. split_and!.
  - simpl. lia.
  - simpl. by rewrite <- !app_assoc.
  - reflexivity.
  - reflexivity.
  - reflexivity.
  - intros ->. unfold run, run_body, pd_read_csv. mstep.
    destruct (csv_avid w) as [e|column]; [by destruct e|].
    destruct (load_progress_cases st) as [[s ->] | ->]; [|done].
    by rewrite Hget.
Qed.

Lemma C3_acquire_gives_up_after_five_witness :
  ∃ st',
    get_ip Scenario.no_lease "http://issuer/get" (start [] None 0) = (Exit 1, st') ∧
    fetches st' = 5%nat ∧
    (run Scenario.no_lease (start [] None 0)).1 = Exit 1.
Proof.
  destruct (C3_acquire_gives_up_after_five Scenario.no_lease "http://issuer/get"
              (start [] None 0)) as (st' & Hget & Hn & _ & _ & _ & _ & Hrun).
  - intros k Hk. simpl.
    do 5 (destruct k as [|k]; [simpl; try done; by intros [=]|]). lia.
  - exists st'. split_and!; [exact Hget | exact Hn | by apply Hrun].
Defined.

(** C4: with a lease issued at [t0], [check_ip_validity] at [t0 + 299]
    does nothing at all, and at [t0 + 301] it goes through [get_ip]; it
    also does so whenever no lease is set.  In general the lease is kept
    up to an age of 300 seconds and replaced beyond. *)
Theorem C4_lease_expiry (w : World) (st : State) (p : string) (t0 : Z) :
  proxy st = Some p → proxy_fetch_time st = t0 →
  (clock st = t0 + 299 → check_ip_validity w st = (Ok tt, st)) ∧
  (clock st = t0 + 301 → reacquires w st) ∧
  (clock st - t0 ≤ 300 → check_ip_validity w st = (Ok tt, st)) ∧
  (300 < clock st - t0 → reacquires w st) ∧
  (∀ st0, proxy st0 = None → reacquires w st0).
Proof.
  intros Hproxy Htime.
  assert (∀ b, (300 <? clock st - t0) = b → lease_stale st = b) as Hage.
  { intros b <-. unfold lease_stale. by rewrite Hproxy, Htime. }
  split_and!.
  - intros Hnow. apply check_ip_validity_fresh, Hage. lia.
  - intros Hnow. apply check_ip_validity_stale, Hage. lia.
  - intros Hnow. apply check_ip_validity_fresh, Hage. lia.
  - intros Hnow. apply check_ip_validity_stale, Hage. lia.
  - intros st0 Hunset. apply check_ip_validity_stale.
    unfold lease_stale. by rewrite Hunset.
Qed.

Lemma C4_lease_expiry_witness :
  check_ip_validity Scenario.healthy (Scenario.leased 1299)
    = (Ok tt, Scenario.leased 1299) ∧
  reacquires Scenario.healthy (Scenario.leased 1301).
Proof.
  split.
  - destruct (C4_lease_expiry Scenario.healthy (Scenario.leased 1299)
                "http://10.0.0.1:8080" 1000 eq_refl eq_refl) as (Hkeep & _).
    apply Hkeep. reflexivity.
  - destruct (C4_lease_expiry Scenario.healthy (Scenario.leased 1301)
                "http://10.0.0.1:8080" 1000 eq_refl eq_refl) as (_ & Hrenew & _).
    apply Hrenew. reflexivity.
Defined.

(** ** One item *)

Lemma bind_ok {A B} (c : M A) (f : A → M B) st a st1 :
  c st = (Ok a, st1) → (c ≫= f) st = f a st1.
Proof. intros Hc. mstep. by rewrite Hc. Qed.

Lemma bind_raise {A B} (c : M A) (f : A → M B) st e st1 :
  c st = (Raise e, st1) → (c ≫= f) st = (Raise e, st1).
Proof. intros Hc. mstep. by rewrite Hc. Qed.

Lemma bind_exit {A B} (c : M A) (f : A → M B) st code st1 :
  c st = (Exit code, st1) → (c ≫= f) st = (Exit code, st1).
Proof. intros Hc. mstep. by rewrite Hc. Qed.

(** Splits a goal about a computation along its binds and handlers. *)
Ltac flow :=
  repeat first
    [ solve [auto with flow]
    | progress intros
    | progress cbv beta zeta
    | apply preserves_bind; [apply _ | |]
    | apply preserves_try_except; [apply _ | |]
    | apply never_exits_bind
    | apply never_exits_try_except ].

Section Items.

Context (w : World).

Hint Resolve stable_emit stable_log_error stable_log_progress
  never_exits_emit never_exits_log_error never_exits_log_progress : flow.

Lemma stable_os_makedirs path : stable (os_makedirs w path).
Proof. unfold os_makedirs. flow. destruct (makedirs w path); flow. Qed.

Lemma never_exits_os_makedirs path : never_exits (os_makedirs w path).
Proof. unfold os_makedirs. flow. destruct (makedirs w path); flow. Qed.

Hint Resolve stable_os_makedirs never_exits_os_makedirs : flow.

Lemma stable_create_directories avid : stable (create_directories w avid).
Proof. unfold create_directories. flow. Qed.

Lemma never_exits_create_directories avid : never_exits (create_directories w avid).
Proof. unfold create_directories. flow. Qed.

Lemma stable_run_command avid command : stable (run_command w avid command).
Proof.
  unfold run_command, subprocess_run_shell. flow.
  - destruct (shell w command); flow.
  - destruct (_ =? 0); flow.
  - destruct e; flow.
Qed.

Lemma never_exits_run_command avid command : never_exits (run_command w avid command).
Proof.
  unfold run_command, subprocess_run_shell. flow.
  - destruct (shell w command); flow.
  - destruct (_ =? 0); flow.
  - destruct e; flow.
Qed.

Hint Resolve stable_run_command never_exits_run_command : flow.

Lemma stable_generate_and_run_commands avid p m a v :
  stable (generate_and_run_commands w avid p m a v).
Proof. unfold generate_and_run_commands. simpl mapM. flow. Qed.

Lemma never_exits_generate_and_run_commands avid p m a v :
  never_exits (generate_and_run_commands w avid p m a v).
Proof. unfold generate_and_run_commands. simpl mapM. flow. Qed.

Lemma stable_extract_cover_image video_path : stable (extract_cover_image w video_path).
Proof.
  unfold extract_cover_image, subprocess_run_check. flow.
  - destruct (exec w _) as [[| |]|]; flow.
  - destruct e; flow.
Qed.

Lemma never_exits_extract_cover_image video_path :
  never_exits (extract_cover_image w video_path).
Proof.
  unfold extract_cover_image, subprocess_run_check. flow.
  - destruct (exec w _) as [[| |]|]; flow.
  - destruct e; flow.
Qed.

Hint Resolve stable_extract_cover_image never_exits_extract_cover_image : flow.

Lemma stable_cover_files root files : stable (cover_files w root files).
Proof.
  induction files as [|file files IH]; simpl; flow.
  destruct (PyStr.endswith file ".mp4"); flow.
Qed.

Lemma never_exits_cover_files root files : never_exits (cover_files w root files).
Proof.
  induction files as [|file files IH]; simpl; flow.
  destruct (PyStr.endswith file ".mp4"); flow.
Qed.

Hint Resolve stable_cover_files never_exits_cover_files : flow.

Lemma stable_cover_walk dirs : stable (cover_walk w dirs).
Proof. induction dirs as [|[root files] dirs IH]; simpl; flow. Qed.

Lemma never_exits_cover_walk dirs : never_exits (cover_walk w dirs).
Proof. induction dirs as [|[root files] dirs IH]; simpl; flow. Qed.

Lemma stable_checkpoint index : stable (checkpoint w index).
Proof.
  unfold checkpoint. destruct (_ =? 0); flow. destruct (operator w index); flow.
Qed.

Lemma never_exits_checkpoint index : never_exits (checkpoint w index).
Proof.
  unfold checkpoint. destruct (_ =? 0); flow. destruct (operator w index); flow.
Qed.

Hint Resolve stable_create_directories never_exits_create_directories
  stable_generate_and_run_commands never_exits_generate_and_run_commands
  stable_cover_walk never_exits_cover_walk
  stable_checkpoint never_exits_checkpoint : flow.

(** What follows the download in [process_item]. *)
Lemma stable_after_download merge_path index avid :
  stable (cover_walk w (walk w merge_path);; log_progress avid;; checkpoint w index).
Proof. flow. Qed.

Lemma stable_process_item index avid : stable (process_item w index avid).
Proof. unfold process_item. flow. destruct a as [[m a] v]. flow. Qed.

Lemma never_exits_process_item index avid : never_exits (process_item w index avid).
Proof. unfold process_item. flow. destruct a as [[m a] v]. flow. Qed.

Lemma stable_guarded_item index avid : stable (guarded_item w index avid).
Proof.
  unfold guarded_item.
  apply preserves_try_except; [apply _ | apply stable_process_item | flow].
Qed.

Lemma never_exits_guarded_item index avid : never_exits (guarded_item w index avid).
Proof.
  apply never_exits_try_except; [apply never_exits_process_item|].
  intros _. apply never_exits_log_error.
Qed.

Lemma stable_run_loop index remaining : stable (run_loop w index remaining).
Proof.
  revert index. induction remaining as [|avid rest IH]; intros index; simpl; [flow|].
  apply preserves_bind; [apply _ | apply stable_check_ip_validity |]. intros _.
  apply preserves_bind; [apply _ | apply stable_guarded_item |]. intros _.
  apply IH.
Qed.

End Items.

Section ItemFacts.

Context (w : World).

Lemma create_directories_spec avid st :
  ∃ o st1,
    create_directories w avid st = (o, st1) ∧
    proxy st1 = proxy st ∧
    Makedirs (merge_dir w avid) ∈ history st1 ∧
    ((∃ a v, o = Ok (merge_dir w avid, a, v)) ∨ ∃ e, o = Raise e).
Proof.
  unfold create_directories, os_makedirs, emit. mstep.
  destruct (makedirs w (merge_dir w avid));
    [|destruct (makedirs w _); [|destruct (makedirs w _)]];
    do 2 eexists; (split; [reflexivity|]); simpl;
    (split; [reflexivity|]); (split; [set_solver|]); eauto.
Qed.

Lemma run_command_failure avid command st :
  error_ledger_writable w →
  shell w command ≠ Returned 0 →
  ∃ st', run_command w avid command st = (Ok tt, st') ∧
         PyStr.of_Z avid ∈ error_log st'.
Proof.
  intros Hwrite Hfail. unfold run_command, subprocess_run_shell, emit, log_error. mstep.
  destruct (shell w command) as [rc|e].
  - destruct (rc =? 0) eqn:Hrc.
    + apply Z.eqb_eq in Hrc. congruence.
    + rewrite Hwrite. eexists. split; [reflexivity|]. simpl. set_solver.
  - destruct e; rewrite Hwrite; eexists; (split; [reflexivity|]); simpl; set_solver.
Qed.

(** As long as the error ledger can be written, the handler around one
    item turns every exception into an entry of the error ledger: the
    turn ends normally. *)
Lemma guarded_item_ok index avid st :
  error_ledger_writable w →
  ∃ st', guarded_item w index avid st = (Ok tt, st').
Proof.
  intros Hwrite. unfold guarded_item, try_except.
  pose proof (never_exits_process_item w index avid st) as Hne.
  destruct (process_item w index avid st) as [[[]|e|code] st1]; simpl in Hne.
  - by eexists.
  - rewrite log_error_written by apply Hwrite. by eexists.
  - by destruct (Hne code).
Qed.

Lemma guarded_item_raise_recorded index avid st :
  error_ledger_writable w →
  item_raises w index avid st →
  PyStr.of_Z avid ∈ error_log (guarded_item w index avid st).2.
Proof.
  intros Hwrite [e He]. unfold guarded_item, try_except.
  destruct (process_item w index avid st) as [o st1]. simpl in He. subst o.
  rewrite log_error_written by apply Hwrite. simpl. set_solver.
Qed.

Lemma guarded_item_download_recorded index avid st :
  error_ledger_writable w →
  download_fails w avid st →
  PyStr.of_Z avid ∈ error_log (guarded_item w index avid st).2.
Proof.
  intros Hwrite Hfail.
  destruct (create_directories_spec avid st)
    as (o & st1 & Hdirs & Hproxy & _ & [(a & v & ->)|[e ->]]).
  - assert (∃ st2, PyStr.of_Z avid ∈ error_log st2 ∧
                   grows st2 (process_item w index avid st).2) as (st2 & Hin & Hg).
    { unfold process_item. rewrite (bind_ok _ _ _ _ _ Hdirs). cbv beta iota.
      rewrite (bind_ok get_state _ st1 st1 st1 eq_refl).
      unfold download_fails in Hfail. rewrite <- Hproxy in Hfail.
      destruct (run_command_failure avid _ st1 Hwrite Hfail) as (st2 & Hrun & Hin).
      assert (generate_and_run_commands w avid (proxy st1) (merge_dir w avid) a v st1
              = (Ok tt, st2)) as Hgen.
      { unfold generate_and_run_commands. simpl mapM.
        rewrite (bind_ok _ _ _ _ _ (bind_ok _ _ _ _ _ Hrun)). reflexivity. }
      rewrite (bind_ok _ _ _ _ _ Hgen).
      exists st2. split; [done|]. apply stable_after_download. }
    eapply elem_of_prefix; [exact Hin|].
    etransitivity; [exact (grows_errors _ _ Hg)|].
    apply grows_errors. unfold guarded_item.
    apply (try_except_from grows). intros _. apply stable_log_error.
  - apply guarded_item_raise_recorded; [done|]. exists e.
    unfold process_item. by rewrite (bind_raise _ _ _ _ _ Hdirs).
Qed.

Lemma guarded_item_makedirs index avid st :
  Makedirs (merge_dir w avid) ∈ history (guarded_item w index avid st).2.
Proof.
  destruct (create_directories_spec avid st) as (o & st1 & Hdirs & _ & Hin & _).
  eapply elem_of_prefix; [exact Hin|].
  assert (grows st1 (process_item w index avid st).2) as Hg.
  { replace st1 with (create_directories w avid st).2 by by rewrite Hdirs.
    unfold process_item. apply (bind_from grows).
    intros [[m a] v]. apply preserves_bind; [apply _|apply preserves_get_state; apply _|].
    intros st'. apply preserves_bind;
      [apply _|apply stable_generate_and_run_commands|].
    intros _. apply stable_after_download. }
  etransitivity; [exact (grows_history _ _ Hg)|].
  apply grows_history. unfold guarded_item.
  apply (try_except_from grows). intros _. apply stable_log_error.
Qed.

Lemma run_loop_app index l1 l2 st :
  run_loop w index (l1 ++ l2) st =
  (run_loop w index l1;; run_loop w (index + Z.of_nat (length l1)) l2) st.
Proof.
  revert index st. induction l1 as [|avid l1 IH]; intros index st.
  - simpl. by rewrite Z.add_0_r.
  - simpl run_loop. mstep.
    destruct (check_ip_validity w st) as [[[]|e|code] st1]; [|done..].
    destruct (guarded_item w index avid st1) as [[[]|e|code] st2]; [|done..].
    rewrite IH. mstep.
    replace (index + 1 + Z.of_nat (length l1)) with (index + Z.of_nat (length (avid :: l1))); [done|].
    rewrite length_cons. lia.
Qed.

(** With a lease manager that never fails and an error ledger that can
    be written, the loop reaches its end and every item of the list has
    been started. *)
Lemma run_loop_completes index l st :
  lease_never_fails w →
  error_ledger_writable w →
  ∃ st', run_loop w index l st = (Ok tt, st') ∧
         ∀ x, x ∈ l → Makedirs (merge_dir w x) ∈ history st'.
Proof.
  intros Hlease Hwrite. revert index st. induction l as [|avid rest IH]; intros index st.
  - exists st. split; [done|]. intros x Hx. by apply elem_of_nil in Hx.
  - destruct (Hlease st) as [st1 Hcheck].
    destruct (guarded_item_ok index avid st1 Hwrite) as [st2 Hitem].
    destruct (IH (index + 1) st2) as (st' & Hrest & Hall).
    exists st'. split.
    + simpl run_loop. rewrite (bind_ok _ _ _ _ _ Hcheck).
      rewrite (bind_ok _ _ _ _ _ Hitem). exact Hrest.
    + intros x [->|Hx]%elem_of_cons; [|by apply Hall].
      eapply elem_of_prefix.
      * pose proof (guarded_item_makedirs index avid st1) as Hin.
        rewrite Hitem in Hin. exact Hin.
      * pose proof (stable_run_loop w (index + 1) rest st2) as Hg.
        rewrite Hrest in Hg. apply Hg.
Qed.

End ItemFacts.


Lemma healthy_service_never_fails (w : World) :
  (∀ n, reply w n = Scenario.good) → lease_never_fails w.
Proof.
  intros Hgood st. unfold check_ip_validity. mstep.
  destruct (lease_stale st); [|by eexists].
  unfold get_ip, max_retries. rewrite get_ip_loop_S.
  unfold attempt_body, requests_get, json_loads, first_entry, emit. mstep.
  rewrite Hgood. simpl. by eexists.
Qed.



(** ** A lease that cannot be renewed *)

Section Abort.

Context (w : World).

Lemma never_exits_attempt url :
  never_exits (try_except (attempt_body w url) (fun _ => sleep w 5;; mret None)).
Proof.
  apply never_exits_try_except.
  - unfold attempt_body, requests_get, json_loads, first_entry, sleep.
    apply never_exits_bind.
    + apply never_exits_bind; [apply never_exits_get_state|]. intros st0.
      apply never_exits_bind; [apply never_exits_emit|]. intros _.
      apply never_exits_bind; [apply never_exits_modify|]. intros _.
      destruct (reply w (fetches st0)); auto with flow.
    + intros r. apply never_exits_bind; [destruct r; auto with flow|].
      intros [ret data]. apply never_exits_bind; [auto with flow|].
      intros code. destruct (code =? 200).
      * apply never_exits_bind; [|auto with flow].
        apply never_exits_bind; auto with flow.
      * apply never_exits_bind; [apply never_exits_emit|auto with flow].
  - intros _. apply never_exits_bind; [apply never_exits_emit|auto with flow].
Qed.

Lemma get_ip_loop_exit_code n url st code st' :
  get_ip_loop w n url st = (Exit code, st') → code = 1.
Proof.
  revert st. induction n as [|n IH]; intros st.
  - by intros [= <- _].
  - rewrite get_ip_loop_S. mstep.
    pose proof (never_exits_attempt url st) as Hne. unfold try_except in Hne.
    destruct (attempt_body w url st) as [[b|e|c] st1]; simpl in *.
    + destruct b as [data|]; [done|]. apply IH.
    + unfold sleep, emit, modify. cbn. apply IH.
    + by destruct (Hne c).
Qed.

Lemma get_ip_exit_code url st code st' :
  get_ip w url st = (Exit code, st') → code = 1.
Proof.
  unfold get_ip. mstep.
  destruct (get_ip_loop w max_retries url st) as [[data|e|c] st1] eqn:Hloop.
  - unfold first_entry. mstep.
    destruct data as [l|]; [|done]. destruct (head l) as [e1|]; [|done].
    destruct (ip e1); [|done]. by destruct (port e1).
  - done.
  - intros [= <- _]. by eapply get_ip_loop_exit_code.
Qed.

(** The only exit status of the lease manager is 1. *)
Lemma check_ip_validity_exit_code st code st' :
  check_ip_validity w st = (Exit code, st') → code = 1.
Proof.
  unfold check_ip_validity. mstep. destruct (lease_stale st); [|done].
  destruct (get_ip w (ip_url w) st) as [[p|e|c] st1] eqn:Hget; [done..|].
  intros [= <- _]. by eapply get_ip_exit_code.
Qed.

End Abort.

(** C9: the lease check of an item sits outside the handler of that
    item.  When the check before [avid] does not end normally (an exit
    after five failed attempts, or an exception), the loop stops there:
    the run ends with exit status 1 in the very state the check left,
    [avid] is not written to a ledger, and no later item is started.  An
    exit would not have been caught by a handler around the check
    either. *)
Theorem C9_lease_failure_ends_run (w : World) (st0 : State)
    (column : list Z) (completed : gset Z) (p : string) (st1 : State)
    (pre : list Z) (avid : Z) (post : list Z) (st_a : State)
    (o : Outcome unit) (st_b : State) :
  csv_avid w = inr column →
  load_progress st0 = (Ok completed, st0) →
  get_ip w (ip_url w) st0 = (Ok p, st1) →
  remaining_avids (unique column) completed = (pre ++ avid :: post)%list →
  run_loop w 1 pre st1 = (Ok tt, st_a) →
  check_ip_validity w st_a = (o, st_b) →
  o ≠ Ok tt →
  run w st0 = (Exit 1, st_b) ∧
  run_loop w 1 (pre ++ avid :: post) st1 = (o, st_b) ∧
  same_ledgers st_a st_b ∧
  (∀ code, o = Exit code →
     code = 1 ∧
     ∀ h, try_except (check_ip_validity w) h st_a = (Exit 1, st_b)).
Proof.
  intros Hcsv Hload Hget Hrem Hpre Hcheck Hbad.
  assert (run_loop w 1 (pre ++ avid :: post) st1 = (o, st_b)) as Hloop.
  { rewrite run_loop_app, (bind_ok _ _ _ _ _ Hpre). simpl run_loop.
    destruct o as [[]|e|code]; [done| |].
    - by rewrite (bind_raise _ _ _ _ _ Hcheck).
    - by rewrite (bind_exit _ _ _ _ _ Hcheck). }
  split_and!.
  - unfold run, run_body, pd_read_csv. rewrite Hcsv.
    unfold try_except.
    rewrite (bind_ok (mret column) _ st0 column st0 eq_refl).
    rewrite (bind_ok _ _ _ _ _ Hload), (bind_ok _ _ _ _ _ Hget), Hrem, Hloop.
    destruct o as [[]|e|code]; [done| |].
    + by destruct e.
    + by rewrite (check_ip_validity_exit_code w _ _ _ Hcheck).
  - exact Hloop.
  - pose proof (off_ledger_check_ip_validity w st_a) as Hsame.
    by rewrite Hcheck in Hsame.
  - intros code ->.
    pose proof (check_ip_validity_exit_code w _ _ _ Hcheck) as ->.
    split; [done|]. intros h. by apply try_except_exit.
Qed.

Lemma C9_lease_failure_ends_run_witness :
  ∃ st_b,
    run Scenario.lease_lost (start [] None 0) = (Exit 1, st_b) ∧
    error_log st_b = [] ∧ progress_log st_b = Some ["101"].
Proof.
  pose (st1 := (get_ip Scenario.lease_lost "http://issuer/get" (start [] None 0)).2).
  pose (st_a := (run_loop Scenario.lease_lost 1 [101] st1).2).
  pose (r := check_ip_validity Scenario.lease_lost st_a).
  destruct (C9_lease_failure_ends_run Scenario.lease_lost (start [] None 0)
              [101; 102] ∅ "http://10.0.0.1:8080" st1 [101] 102 [] st_a r.1 r.2)
    as (Hrun & _ & [Herr Hprog] & _).
  - reflexivity.
  - reflexivity.
  - by vm_compute.
  - by vm_compute.
  - by vm_compute.
  - apply surjective_pairing.
  - by vm_compute.
  - exists r.2. split; [exact Hrun|]. split.
    + rewrite Herr. by vm_compute.
    + rewrite Hprog. by vm_compute.
Defined.

(** ** The covers *)

Section StringFacts.

Implicit Types (s x y : string) (c : ascii).

#[local] Arguments String.append !_ _ / : simpl nomatch.

Lemma app_nil_r_string s : s +:+ "" = s.
Proof. induction s as [|a s IH]; simpl; by rewrite ?IH. Qed.

Lemma app_assoc_string x y s : (x +:+ y) +:+ s = x +:+ (y +:+ s).
Proof. induction x as [|a x IH]; simpl; by rewrite ?IH. Qed.

Lemma length_app_string x y :
  String.length (x +:+ y) = (String.length x + String.length y)%nat.
Proof. induction x as [|a x IH]; simpl; by rewrite ?IH. Qed.

Lemma take_app_length x y : PyStr.take (String.length x) (x +:+ y) = x.
Proof. induction x as [|a x IH]; simpl; [by destruct y|by rewrite IH]. Qed.

Lemma drop_app_length x y : PyStr.drop (String.length x) (x +:+ y) = y.
Proof. induction x as [|a x IH]; simpl; done. Qed.

Lemma endswith_spec s suf :
  PyStr.endswith s suf = true ↔ ∃ x, s = x +:+ suf.
Proof.
  induction s as [|a s IH].
  - change (PyStr.endswith "" suf) with (String.eqb "" suf || false).
    rewrite orb_false_r, String.eqb_eq. split.
    + intros <-. by exists "".
    + intros [x Hx]. destruct x; [done|discriminate].
  - change (PyStr.endswith (String a s) suf)
      with (String.eqb (String a s) suf || PyStr.endswith s suf).
    rewrite orb_true_iff, String.eqb_eq, IH. split.
    + intros [<-|[x ->]]; [by exists ""|]. by exists (String a x).
    + intros [[|b x] Hx]; [by left|]. right. exists x. simpl in Hx. congruence.
Qed.

Lemma rfind_bounds c s : -1 ≤ PyStr.rfind c s < Z.of_nat (String.length s).
Proof.
  induction s as [|a s IH]; simpl String.length; simpl PyStr.rfind; [lia|].
  destruct (0 <=? PyStr.rfind c s) eqn:Hr; [lia|].
  destruct (Ascii.eqb a c); lia.
Qed.

Lemma rfind_app c x y :
  PyStr.rfind c (x +:+ y) =
  if 0 <=? PyStr.rfind c y then Z.of_nat (String.length x) + PyStr.rfind c y
  else PyStr.rfind c x.
Proof.
  induction x as [|a x IH]; simpl String.length; simpl PyStr.rfind.
  - destruct (0 <=? PyStr.rfind c y) eqn:Hy; [lia|].
    pose proof (rfind_bounds c y). apply Z.leb_gt in Hy. lia.
  - change (String a x +:+ y) with (String a (x +:+ y)). simpl PyStr.rfind.
    rewrite IH. destruct (0 <=? PyStr.rfind c y) eqn:Hy.
    + apply Z.leb_le in Hy.
      destruct (0 <=? Z.of_nat (String.length x) + PyStr.rfind c y) eqn:Hs; [lia|].
      apply Z.leb_gt in Hs. lia.
    + done.
Qed.

Lemma rfind_absent c s :
  PyStr.all_chars (fun a => negb (Ascii.eqb a c)) s = true → PyStr.rfind c s = -1.
Proof.
  induction s as [|a s IH]; simpl; [done|].
  intros [Ha Hs]%andb_true_iff. rewrite (IH Hs). simpl.
  by destruct (Ascii.eqb a c).
Qed.

Lemma join_file root file :
  PyStr.startswith file "/" = false →
  PosixPath.join root [file] = dir_prefix root +:+ file.
Proof.
  intros Hfile. unfold PosixPath.join, PosixPath.join2, dir_prefix. simpl.
  rewrite Hfile. destruct (String.eqb root "" || PyStr.endswith root "/"); [done|].
  by rewrite app_assoc_string.
Qed.

Lemma dir_prefix_sep root :
  PyStr.rfind "/" (dir_prefix root) = Z.of_nat (String.length (dir_prefix root)) - 1.
Proof.
  unfold dir_prefix. destruct (String.eqb_spec root "") as [->|Hne]; [done|]. simpl.
  destruct (PyStr.endswith root "/") eqn:Hend.
  - apply endswith_spec in Hend as [x ->].
    rewrite rfind_app, length_app_string. simpl. lia.
  - rewrite rfind_app, length_app_string. simpl. lia.
Qed.

Lemma splitext_video d stem :
  PyStr.rfind "/" d = Z.of_nat (String.length d) - 1 →
  no_slash stem → not_only_dots stem →
  PosixPath.splitext (d +:+ stem +:+ ".mp4") = (d +:+ stem, ".mp4").
Proof.
  intros Hd Hslash Hdots. unfold PosixPath.splitext.
  assert (PyStr.rfind "/" (d +:+ stem +:+ ".mp4") = Z.of_nat (String.length d) - 1) as ->.
  { rewrite rfind_app, rfind_app. simpl (PyStr.rfind "/" ".mp4"). simpl.
    by rewrite (rfind_absent "/" stem Hslash). }
  assert (PyStr.rfind "." (d +:+ stem +:+ ".mp4")
          = Z.of_nat (String.length (d +:+ stem))) as ->.
  { rewrite <- app_assoc_string, rfind_app. simpl. lia. }
  rewrite length_app_string.
  destruct (Z.ltb_spec (Z.of_nat (String.length d) - 1)
              (Z.of_nat (String.length d + String.length stem))) as [_|?]; [|lia].
  replace (Z.to_nat (Z.of_nat (String.length d) - 1 + 1)) with (String.length d) by lia.
  replace (Z.to_nat (Z.of_nat (String.length d + String.length stem)) - String.length d)%nat
    with (String.length stem) by lia.
  rewrite drop_app_length, take_app_length.
  unfold not_only_dots in Hdots. rewrite Hdots.
  rewrite Nat2Z.id, <- length_app_string, <- app_assoc_string.
  by rewrite take_app_length, drop_app_length.
Qed.

(** A name made of dots before [.mp4] (the file [.mp4] itself, [..mp4],
    and so on) has no extension for [splitext]. *)
Lemma splitext_dots d stem :
  PyStr.rfind "/" d = Z.of_nat (String.length d) - 1 →
  no_slash stem → ¬ not_only_dots stem →
  PosixPath.splitext (d +:+ stem +:+ ".mp4") = (d +:+ stem +:+ ".mp4", "").
Proof.
  intros Hd Hslash Hdots. unfold PosixPath.splitext.
  assert (PyStr.rfind "/" (d +:+ stem +:+ ".mp4") = Z.of_nat (String.length d) - 1) as ->.
  { rewrite rfind_app, rfind_app. simpl (PyStr.rfind "/" ".mp4"). simpl.
    by rewrite (rfind_absent "/" stem Hslash). }
  assert (PyStr.rfind "." (d +:+ stem +:+ ".mp4")
          = Z.of_nat (String.length (d +:+ stem))) as ->.
  { rewrite <- app_assoc_string, rfind_app. simpl. lia. }
  rewrite length_app_string.
  destruct (Z.ltb_spec (Z.of_nat (String.length d) - 1)
              (Z.of_nat (String.length d + String.length stem))) as [_|?]; [|lia].
  replace (Z.to_nat (Z.of_nat (String.length d) - 1 + 1)) with (String.length d) by lia.
  replace (Z.to_nat (Z.of_nat (String.length d + String.length stem)) - String.length d)%nat
    with (String.length stem) by lia.
  rewrite drop_app_length, take_app_length.
  unfold not_only_dots in Hdots. apply not_false_is_true in Hdots. by rewrite Hdots.
Qed.

End StringFacts.

Section Covers.

Context (w : World).

Lemma file_paths_cons root file files :
  file_paths root (file :: files) =
  if PyStr.endswith file ".mp4"
  then PosixPath.join root [file] :: file_paths root files
  else file_paths root files.
Proof.
  unfold file_paths. rewrite filter_cons.
  destruct (PyStr.endswith file ".mp4"); by case_decide.
Qed.

Lemma video_paths_cons root files dirs :
  video_paths ((root, files) :: dirs) = (file_paths root files ++ video_paths dirs)%list.
Proof. reflexivity. Qed.

(** One call of the extraction tool: it is made, and it either ends
    normally (also when the tool returns a failure status, which goes
    to the error ledger under the name of the file), or lets through an
    exception that is not [CalledProcessError], or lets through the
    exception of the write to the error ledger. *)
Lemma extract_cover_image_spec v st :
  history (extract_cover_image w v st).2 = (history st ++ [Exec (ffmpeg_command v)])%list ∧
  ((extract_cover_image w v st).1 = Ok tt ∨
   ∃ e, (extract_cover_image w v st).1 = Raise e ∧
        ((exec w (ffmpeg_command v) = Threw e ∧ ∀ rc, e ≠ CalledProcessError rc) ∨
         ∃ n, error_write w n = Some e)).
Proof.
  unfold extract_cover_image, subprocess_run_check, emit, try_except. mstep.
  destruct (exec w (ffmpeg_command v)) as [[|rc|rc]|e]; simpl;
    rewrite ?log_error_eq; simpl;
    try (destruct (error_write w _) eqn:Hw; simpl);
    try (split; [done|by left]);
    try (split; [done|]; right; eexists; split; [done|]; right; by eexists).
  destruct e; simpl; rewrite ?log_error_eq; simpl;
    try (destruct (error_write w _) eqn:Hw; simpl);
    (split; [done|]); try (by left);
    right; eexists; (split; [done|]);
    first [left; by split | right; by eexists].
Qed.

Lemma cover_files_spec root files st :
  covers_outcome w (file_paths root files) st (cover_files w root files st).
Proof.
  revert st. induction files as [|file files IH]; intros st.
  - exists []. simpl. rewrite app_nil_r. split_and!; [done|done|by left].
  - rewrite file_paths_cons. simpl cover_files.
    destruct (PyStr.endswith file ".mp4").
    + set (v := PosixPath.join root [file]).
      destruct (extract_cover_image_spec v st) as [Hhist Hout].
      destruct (extract_cover_image w v st) as [o st1] eqn:Hcall. simpl in *.
      destruct Hout as [->|(e & -> & Hwhy)].
      * rewrite (bind_ok _ _ _ _ _ Hcall).
        destruct (IH st1) as (treated & Hpre & Hh & Hcases).
        exists (v :: treated). split_and!.
        -- by apply prefix_cons.
        -- rewrite Hh, Hhist, <- app_assoc. done.
        -- destruct Hcases as [[? ->]|(e & v' & ? & ? & ?)]; [by left|].
           right. exists e, v'. split_and!; try done. by apply elem_of_cons; right.
      * rewrite (bind_raise _ _ _ _ _ Hcall).
        exists [v]. split_and!.
        -- apply prefix_cons, prefix_nil.
        -- done.
        -- right. exists e, v. split_and!; try done. by apply elem_of_cons; left.
    + rewrite (bind_ok (mret tt) _ st tt st eq_refl). apply IH.
Qed.

Lemma cover_walk_spec dirs st :
  covers_outcome w (video_paths dirs) st (cover_walk w dirs st).
Proof.
  revert st. induction dirs as [|[root files] dirs IH]; intros st.
  - exists []. simpl. rewrite app_nil_r. split_and!; [done|done|by left].
  - rewrite video_paths_cons. simpl cover_walk.
    destruct (cover_files_spec root files st) as (t1 & Hp1 & Hh1 & Hc1).
    destruct (cover_files w root files st) as [o st1] eqn:Hfiles. simpl in *.
    destruct Hc1 as [[-> ->]|(e & v & -> & Hv & Hwhy)].
    + rewrite (bind_ok _ _ _ _ _ Hfiles).
      destruct (IH st1) as (t2 & Hp2 & Hh2 & Hc2).
      exists (file_paths root files ++ t2)%list. split_and!.
      * by apply prefix_app.
      * rewrite Hh2, Hh1, fmap_app, <- app_assoc. done.
      * destruct Hc2 as [[? ->]|(e & v & ? & ? & ?)]; [by left|].
        right. exists e, v. split_and!; try done. apply elem_of_app. by right.
    + rewrite (bind_raise _ _ _ _ _ Hfiles).
      exists t1. split_and!.
      * by apply prefix_app_r.
      * done.
      * right. exists e, v. split_and!; try done. apply elem_of_app. by left.
Qed.

Lemma elem_of_file_paths root files v :
  v ∈ file_paths root files ↔
  ∃ file, file ∈ files ∧ PyStr.endswith file ".mp4" = true ∧
          v = PosixPath.join root [file].
Proof.
  unfold file_paths. rewrite list_elem_of_fmap. split.
  - intros (file & -> & [? ?]%list_elem_of_filter). by exists file.
  - intros (file & ? & ? & ->). exists file. split; [done|].
    by apply list_elem_of_filter.
Qed.

Lemma elem_of_video_paths dirs v :
  v ∈ video_paths dirs ↔
  ∃ root files file,
    (root, files) ∈ dirs ∧ file ∈ files ∧
    PyStr.endswith file ".mp4" = true ∧ v = PosixPath.join root [file].
Proof.
  unfold video_paths. rewrite list_elem_of_bind. split.
  - intros ([root files] & (file & ? & ? & ->)%elem_of_file_paths & ?).
    by exists root, files, file.
  - intros (root & files & file & ? & ? & ? & ->).
    exists (root, files). split; [|done]. apply elem_of_file_paths. by exists file.
Qed.

End Covers.

(** C10 as the code has it: the extraction tool is run only on files
    named [*.mp4] that the walk of the merge directory of the item
    yields, in the order of the walk: on a prefix of them, and on all of
    them when the loops end normally, which they do when the tool raises
    nothing but [CalledProcessError] and the error ledger can be
    written.  Each call writes to [splitext(path)[0] + '.jpg']: the path
    of its input with [.mp4] replaced by [.jpg] when something other
    than dots precedes [.mp4] in the name of the file, and the path of
    its input followed by [.jpg] otherwise. *)
Theorem C10_covers_of_the_mp4_files (w : World) (avid : Z) (st : State) :
  let dirs := walk w (merge_dir w avid) in
  let r := cover_walk w dirs st in
  (∀ v, v ∈ video_paths dirs ↔
        ∃ root files stem,
          (root, files) ∈ dirs ∧ stem +:+ ".mp4" ∈ files ∧
          v = PosixPath.join root [stem +:+ ".mp4"]) ∧
  (∃ treated,
     treated `prefix_of` video_paths dirs ∧
     history r.2 = (history st ++ ((fun v => Exec (ffmpeg_command v)) <$> treated))%list ∧
     (r.1 = Ok tt → treated = video_paths dirs)) ∧
  ((∀ v e, v ∈ video_paths dirs → exec w (ffmpeg_command v) = Threw e →
           ∃ rc, e = CalledProcessError rc) →
   error_ledger_writable w →
   r.1 = Ok tt) ∧
  (∀ v, ffmpeg_command v =
        ["ffmpeg"; "-loglevel"; "quiet"; "-i"; v; "-map"; "0:v"; "-map"; "-0:V";
         "-c"; "copy"; (PosixPath.splitext v).1 +:+ ".jpg"]) ∧
  (∀ root stem,
     no_slash stem →
     (not_only_dots stem →
      PosixPath.splitext (PosixPath.join root [stem +:+ ".mp4"])
        = (PosixPath.join root [stem], ".mp4") ∧
      (PosixPath.splitext (PosixPath.join root [stem +:+ ".mp4"])).1 +:+ ".jpg"
        = PosixPath.join root [stem +:+ ".jpg"]) ∧
     (¬ not_only_dots stem →
      PosixPath.splitext (PosixPath.join root [stem +:+ ".mp4"])
        = (PosixPath.join root [stem +:+ ".mp4"], "") ∧
      (PosixPath.splitext (PosixPath.join root [stem +:+ ".mp4"])).1 +:+ ".jpg"
        = PosixPath.join root [stem +:+ ".mp4"] +:+ ".jpg")).
Proof.
  intros dirs r. split_and!.
  - intros v. rewrite elem_of_video_paths. split.
    + intros (root & files & file & ? & ? & [stem ->]%endswith_spec & ->).
      by exists root, files, stem.
    + intros (root & files & stem & ? & ? & ->).
      exists root, files, (stem +:+ ".mp4"). split_and!; try done.
      apply endswith_spec. by exists stem.
  - destruct (cover_walk_spec w dirs st) as (treated & Hpre & Hhist & Hcases).
    exists treated. split_and!; [done|done|].
    intros Hok. destruct Hcases as [[_ ->]|(e & v & He & _)]; [done|].
    subst r. congruence.
  - intros Hexec Hwrite.
    destruct (cover_walk_spec w dirs st) as (treated & _ & _ & Hcases).
    destruct Hcases as [[Hok _]|(e & v & _ & Hv & [[He Hne]|[n Hn]])]; [done|..].
    + destruct (Hexec v e Hv He) as [rc Hrc]. by destruct (Hne rc).
    + by rewrite Hwrite in Hn.
  - done.
  - intros root stem Hslash.
    assert (∀ ext, PyStr.startswith ext "/" = false →
                   PyStr.startswith (stem +:+ ext) "/" = false) as Hstart.
    { intros ext Hext. destruct stem as [|a stem]; [done|].
      unfold no_slash in Hslash. simpl in Hslash.
      apply andb_true_iff in Hslash as [Ha _].
      unfold PyStr.startswith.
      change (String a stem +:+ ext) with (String a (stem +:+ ext)).
      cbn [String.prefix].
      destruct (ascii_dec "/" a) as [<-|?]; [by vm_compute in Ha|done]. }
    pose proof (Hstart ".mp4" eq_refl) as Hmp4.
    pose proof (Hstart ".jpg" eq_refl) as Hjpg.
    assert (PyStr.startswith stem "/" = false) as Hstem.
    { rewrite <- (app_nil_r_string stem). by apply Hstart. }
    split; intros Hdots.
    + rewrite !join_file by done.
      rewrite (splitext_video _ stem (dir_prefix_sep root) Hslash Hdots).
      split; [done|]. simpl. by rewrite app_assoc_string.
    + rewrite !join_file by done.
      by rewrite (splitext_dots _ stem (dir_prefix_sep root) Hslash Hdots).
Qed.

Lemma C10_covers_of_the_mp4_files_witness :
  (cover_walk Scenario.nested
     (walk Scenario.nested (merge_dir Scenario.nested 101)) (start [] None 0)).1 = Ok tt ∧
  (PosixPath.splitext (PosixPath.join "small_output/b/101/merge" ["a" +:+ ".mp4"])).1
    +:+ ".jpg" = PosixPath.join "small_output/b/101/merge" ["a" +:+ ".jpg"] ∧
  (PosixPath.splitext (PosixPath.join "small_output/b/101/merge" [".." +:+ ".mp4"])).1
    +:+ ".jpg" = PosixPath.join "small_output/b/101/merge" [".." +:+ ".mp4"] +:+ ".jpg".
Proof.
  destruct (C10_covers_of_the_mp4_files Scenario.nested 101 (start [] None 0))
    as (_ & _ & Hok & _ & Hout).
  split_and!.
  - apply Hok.
    + intros v e _ Hexec. discriminate Hexec.
    + intros n. reflexivity.
  - apply (Hout "small_output/b/101/merge" "a"); reflexivity.
  - apply (Hout "small_output/b/101/merge" ".."); [reflexivity|].
    unfold not_only_dots. vm_compute. discriminate.
Defined.

(** C10 as stated does not hold.  With two videos of which the first
    makes the tool run into its timeout, the second one is never
    treated; and for the file [.mp4] the image is [.mp4.jpg], beside a
    video whose name is kept whole. *)
Lemma C10_counterexample :
  let w := Cases.first_cover_hangs in
  let dirs := walk w (merge_dir w 101) in
  let r := cover_walk w dirs (start [] None 0) in
  video_paths dirs = ["small_output/b/101/merge/a.mp4"; "small_output/b/101/merge/b.mp4"] ∧
  r.1 = Raise TimeoutExpired ∧
  history r.2 = [Exec (ffmpeg_command "small_output/b/101/merge/a.mp4")] ∧
  (Exec (ffmpeg_command "small_output/b/101/merge/b.mp4") ∉ history r.2) ∧
  last (ffmpeg_command (PosixPath.join "small_output/b/101/merge" [".mp4"]))
    = Some "small_output/b/101/merge/.mp4.jpg".
Proof.
  intros w dirs r.
  assert (history r.2 = [Exec (ffmpeg_command "small_output/b/101/merge/a.mp4")]) as Hh
    by (vm_compute; reflexivity).
  split_and!; [vm_compute; reflexivity..|exact Hh| |vm_compute; reflexivity].
  rewrite Hh. intros H%list_elem_of_singleton. vm_compute in H. discriminate H.
Qed.

Example covers_of_nested :
  history (cover_walk Scenario.nested
             (walk Scenario.nested (merge_dir Scenario.nested 101)) (start [] None 0)).2
  = [Exec (ffmpeg_command "small_output/b/101/merge/a.mp4");
     Exec (ffmpeg_command "small_output/b/101/merge/extra/b.mp4")].
Proof. by vm_compute. Qed.

(** An exception of the lease manager ends the run just as an exit
    does: a granted lease without an address raises [KeyError] outside
    the [try] of [get_ip]. *)
Example malformed_lease_ends_run :
  let r := run Scenario.lease_malformed (start [] None 0) in
  r.1 = Exit 1 ∧ error_log r.2 = [] ∧ progress_log r.2 = Some ["101"] ∧
  fetches r.2 = 2%nat.
Proof. by vm_compute. Qed.

(** ** Where the code departs from its description *)

(** C1 (not met by the code): a download that fails is written to the
    error ledger inside [generate_and_run_commands] and nothing is
    raised, so [run] goes on to [log_progress].  With the items 101 and
    102 and a download of 102 that times out, the run ends normally with
    102 in the error ledger and in the progress ledger as well. *)
Theorem C1_failed_download_is_marked_complete :
  let w := Scenario.timeout_on_102 in
  let r := run w (start [] None 0) in
  shell w (Scenario.download_of 102) = Threw TimeoutExpired ∧
  r.1 = Ok tt ∧
  error_log r.2 = ["102"] ∧
  progress_log r.2 = Some ["101"; "102"] ∧
  Shell (Scenario.download_of 102) ∈ history r.2.
Proof.
  intros w r. split_and!; try by vm_compute.
  vm_compute. repeat first [apply list_elem_of_here | apply list_elem_of_further].
Qed.

(** C5 (not met by the code for a timeout): when the extraction tool
    returns a failure status, the name of the file goes to the error
    ledger and the item is appended to the progress ledger; when the
    tool runs into its timeout, [TimeoutExpired] is not caught in
    [extract_cover_image] but by the handler of the item, which writes
    the item (not the file) to the error ledger, and the item is not
    appended to the progress ledger although its download succeeded. *)
Theorem C5_cover_timeout_fails_the_item :
  let failing := run (Scenario.one_item (Returned 1)) (start [] None 0) in
  let hanging := run (Scenario.one_item (Threw TimeoutExpired)) (start [] None 0) in
  (failing.1 = Ok tt ∧
   error_log failing.2 = ["v.mp4"] ∧
   progress_log failing.2 = Some ["101"]) ∧
  (hanging.1 = Ok tt ∧
   error_log hanging.2 = ["101"] ∧
   progress_log hanging.2 = None).
Proof. intros failing hanging. by vm_compute. Qed.

(** A failure status of the extraction tool does not stop the item
    when the error ledger can be written: the call ends normally with
    the name of the file in the error ledger and the progress ledger
    untouched. *)
Lemma cover_failure_is_recorded (w : World) (v : string) (rc : Z) (st : State) :
  exec w (ffmpeg_command v) = Returned rc → rc ≠ 0 →
  error_write w (error_writes st) = None →
  ∃ st', extract_cover_image w v st = (Ok tt, st') ∧
         error_log st' = (error_log st ++ [PosixPath.basename v])%list ∧
         progress_log st' = progress_log st.
Proof.
  intros Hexec Hrc Hwrite.
  unfold extract_cover_image, subprocess_run_check, emit, log_error.
  mstep. rewrite Hexec. destruct rc as [|rc|rc]; [done|..];
    cbn [error_writes]; rewrite Hwrite; by eexists.
Qed.

(** When the write to the error ledger is refused, its exception leaves
    the call: the handler of [extract_cover_image] has no handler of
    its own. *)
Lemma cover_failure_write_refused (w : World) (v : string) (rc : Z) (st : State)
    (e : Exc) :
  exec w (ffmpeg_command v) = Returned rc → rc ≠ 0 →
  error_write w (error_writes st) = Some e →
  ∃ st', extract_cover_image w v st = (Raise e, st') ∧
         error_log st' = error_log st ∧
         progress_log st' = progress_log st.
Proof.
  intros Hexec Hrc Hwrite.
  unfold extract_cover_image, subprocess_run_check, emit, log_error.
  mstep. rewrite Hexec. destruct rc as [|rc|rc]; [done|..];
    cbn [error_writes]; rewrite Hwrite; by eexists.
Qed.

(** Any other exception of the extraction tool leaves the call. *)
Lemma cover_timeout_escapes (w : World) (v : string) (st : State) :
  exec w (ffmpeg_command v) = Threw TimeoutExpired →
  ∃ st', extract_cover_image w v st = (Raise TimeoutExpired, st') ∧
         error_log st' = error_log st.
Proof.
  intros Hexec. unfold extract_cover_image, subprocess_run_check, emit, log_error.
  mstep. rewrite Hexec. by eexists.
Qed.

(** The defect behind C1 in general: when the directories can be made,
    the download fails, the merge directory holds nothing and no
    checkpoint is due, the turn of the item ends normally with the item
    in the error ledger and in the progress ledger. *)
Lemma failed_download_reaches_log_progress (w : World) (index avid : Z) (st : State) :
  error_ledger_writable w →
  (∀ path, makedirs w path = None) →
  download_fails w avid st →
  walk w (merge_dir w avid) = [] →
  index mod 1000 ≠ 0 →
  ∃ st', guarded_item w index avid st = (Ok tt, st') ∧
         error_log st' = (error_log st ++ [PyStr.of_Z avid])%list ∧
         progress_log st' =
           Some (default [] (progress_log st) ++ [PyStr.of_Z avid])%list.
Proof.
  intros Hwrite Hdirs Hfail Hwalk Hindex. unfold download_fails in Hfail.
  unfold guarded_item, process_item, create_directories, os_makedirs,
    generate_and_run_commands, run_command, subprocess_run_shell, checkpoint,
    emit, log_progress.
  simpl mapM. mstep. rewrite !Hdirs. cbn [proxy].
  destruct (Z.eqb_spec (index mod 1000) 0) as [?|_]; [done|].
  rewrite Hwalk.
  destruct (shell w _) as [rc|e] eqn:Hshell.
  - destruct (Z.eqb_spec rc 0) as [->|_]; [done|].
    rewrite log_error_written by apply Hwrite. by eexists.
  - destruct e; rewrite log_error_written by apply Hwrite; by eexists.
Qed.

(** * Further properties *)

(** ** Decimal lines *)

Section Decimal.

#[local] Arguments String.append !_ _ / : simpl nomatch.

Lemma rev_app_all p s t :
  PyStr.all_chars p (String.rev_app s t) = PyStr.all_chars p s && PyStr.all_chars p t.
Proof.
  revert t. induction s as [|a s IH]; intros t; simpl; [done|].
  rewrite IH. simpl. destruct (p a), (PyStr.all_chars p s); simpl; try done.
Qed.

Lemma rev_app_rev_app s t u :
  String.rev_app (String.rev_app s t) u = String.rev_app t (s +:+ u).
Proof.
  revert t u. induction s as [|a s IH]; intros t u; simpl; [done|].
  by rewrite IH.
Qed.

Lemma rev_rev s : String.rev (String.rev s) = s.
Proof.
  unfold String.rev. rewrite rev_app_rev_app. simpl. apply app_nil_r_string.
Qed.

Lemma lstrip_id s :
  PyStr.all_chars (fun c => negb (PyStr.isspace c)) s = true → PyStr.lstrip s = s.
Proof.
  destruct s as [|a s]; simpl; [done|].
  intros [Ha _]%andb_true_iff. by destruct (PyStr.isspace a).
Qed.

(** [strip] leaves a text without whitespace as it is. *)
Lemma strip_id s :
  PyStr.all_chars (fun c => negb (PyStr.isspace c)) s = true → PyStr.strip s = s.
Proof.
  intros Hs. unfold PyStr.strip, PyStr.rstrip.
  rewrite (lstrip_id s Hs), lstrip_id, rev_rev; [done|].
  unfold String.rev. rewrite rev_app_all, Hs. done.
Qed.

Lemma uint_no_space d :
  PyStr.all_chars (fun c => negb (PyStr.isspace c)) (NilEmpty.string_of_uint d) = true.
Proof. induction d; simpl; by rewrite ?IHd. Qed.

Lemma digits_of_uint_acc d acc :
  PyStr.digits (Z.pos acc) true (NilEmpty.string_of_uint d)
  = Some (Z.pos (Pos.of_uint_acc d acc)).
Proof.
  revert acc. induction d as [|d IH|d IH|d IH|d IH|d IH|d IH|d IH|d IH|d IH|d IH];
    intros acc; [done|..];
    cbn [NilEmpty.string_of_uint PyStr.digits Pos.of_uint_acc];
    match goal with
    | |- context [PyStr.is_digit ?c] =>
        change (PyStr.is_digit c) with true; cbv iota;
        let v := eval vm_compute in (PyStr.digit_value c) in
        change (PyStr.digit_value c) with v
    end;
    rewrite <- IH; f_equal; lia.
Qed.

Lemma digits_of_uint d b :
  d ≠ Decimal.Nil ∨ b = true →
  PyStr.digits 0 b (NilEmpty.string_of_uint d) = Some (Z.of_N (Pos.of_uint d)).
Proof.
  revert b. induction d as [|d IH|d IH|d IH|d IH|d IH|d IH|d IH|d IH|d IH|d IH];
    intros b Hb.
  - destruct Hb as [?| ->]; done.
  - cbn [NilEmpty.string_of_uint PyStr.digits Pos.of_uint].
    change (PyStr.is_digit "0") with true. cbv iota.
    change (10 * 0 + PyStr.digit_value "0") with 0. apply IH. by right.
  - apply (digits_of_uint_acc d 1).
  - apply (digits_of_uint_acc d 2).
  - apply (digits_of_uint_acc d 3).
  - apply (digits_of_uint_acc d 4).
  - apply (digits_of_uint_acc d 5).
  - apply (digits_of_uint_acc d 6).
  - apply (digits_of_uint_acc d 7).
  - apply (digits_of_uint_acc d 8).
  - apply (digits_of_uint_acc d 9).
Qed.

Lemma int_of_uint d :
  d ≠ Decimal.Nil →
  PyStr.int (NilEmpty.string_of_uint d) = Some (Z.of_N (Pos.of_uint d)).
Proof.
  intros Hd. unfold PyStr.int. rewrite (strip_id _ (uint_no_space d)).
  rewrite <- (digits_of_uint d false) by by left.
  destruct d; done.
Qed.

Lemma int_of_neg_uint d :
  d ≠ Decimal.Nil →
  PyStr.int (String "-" (NilEmpty.string_of_uint d)) = Some (- Z.of_N (Pos.of_uint d)).
Proof.
  intros Hd. unfold PyStr.int. rewrite strip_id.
  - rewrite (digits_of_uint d false) by by left. done.
  - simpl. apply uint_no_space.
Qed.

(** What [str] prints, [int] reads back. *)
Lemma int_of_Z n : PyStr.int (PyStr.of_Z n) = Some n.
Proof.
  unfold PyStr.of_Z. destruct n as [|p|p]; [done|..];
    pose proof (DecimalPos.Unsigned.to_uint_nonnil p) as Hnil;
    pose proof (DecimalPos.Unsigned.of_to p) as Hval;
    unfold Z.to_int, NilZero.string_of_int, NilZero.string_of_uint.
  - destruct (Pos.to_uint p) eqn:Hp; try done;
      rewrite <- Hp, int_of_uint, Hp, Hval by (rewrite Hp; done); done.
  - destruct (Pos.to_uint p) eqn:Hp; try done;
      rewrite <- Hp, int_of_neg_uint, Hp, Hval by (rewrite Hp; done); done.
Qed.

Lemma of_Z_inj n m : PyStr.of_Z n = PyStr.of_Z m → n = m.
Proof.
  intros Heq. pose proof (int_of_Z n) as Hn. rewrite Heq, int_of_Z in Hn. congruence.
Qed.

Lemma of_Z_no_space n :
  PyStr.all_chars (fun c => negb (PyStr.isspace c)) (PyStr.of_Z n) = true.
Proof.
  unfold PyStr.of_Z. destruct n as [|p|p]; [done|..];
    unfold Z.to_int, NilZero.string_of_int, NilZero.string_of_uint.
  - destruct (Pos.to_uint p) eqn:Hp; try done; rewrite <- Hp; apply uint_no_space.
  - destruct (Pos.to_uint p) eqn:Hp; try done; rewrite <- Hp; simpl; apply uint_no_space.
Qed.

Lemma of_Z_nonblank n : nonblank (PyStr.of_Z n).
Proof.
  unfold nonblank. rewrite (strip_id _ (of_Z_no_space n)).
  intros Hempty. pose proof (int_of_Z n) as Hn. by rewrite Hempty in Hn.
Qed.

End Decimal.

(** ** The progress ledger across runs *)

Lemma parse_progress_app lines1 lines2 :
  parse_progress (lines1 ++ lines2) =
  s1 ← parse_progress lines1; s2 ← parse_progress lines2; Some (s1 ∪ s2).
Proof.
  induction lines1 as [|line lines1 IH]; simpl.
  - destruct (parse_progress lines2) as [s2|]; simpl; [|done].
    by rewrite (left_id_L ∅ (∪)).
  - destruct (String.eqb (PyStr.strip line) ""); [done|].
    destruct (PyStr.int (PyStr.strip line)) as [n|]; simpl; [|done].
    rewrite IH. destruct (parse_progress lines1) as [s1|]; simpl; [|done].
    destruct (parse_progress lines2) as [s2|]; simpl; [|done].
    by rewrite (assoc_L (∪)).
Qed.

Lemma parse_progress_of_Z ids :
  parse_progress (PyStr.of_Z <$> ids) = Some (list_to_set ids).
Proof.
  induction ids as [|n ids IH]; [done|].
  rewrite fmap_cons. cbn [parse_progress].
  pose proof (of_Z_nonblank n) as Hnb. unfold nonblank in Hnb.
  destruct (String.eqb_spec (PyStr.strip (PyStr.of_Z n)) "") as [?|_]; [done|].
  rewrite (strip_id _ (of_Z_no_space n)), int_of_Z, IH. done.
Qed.

Lemma load_progress_lines st s :
  load_progress st = (Ok s, st) ↔ parse_progress (progress_lines st) = Some s.
Proof.
  unfold load_progress, progress_lines. mstep.
  destruct (progress_log st) as [lines|]; simpl.
  - destruct (parse_progress lines); split; congruence.
  - split; congruence.
Qed.

(** ** The bytes of the progress ledger *)

Section LedgerText.

#[local] Arguments String.append !_ _ / : simpl nomatch.

Implicit Types (text cur tail s : string) (c : ascii) (cr : bool).

Lemma lines_from_flag cr cur text :
  starts_with_LF text = false → lines_from cr cur text = lines_from false cur text.
Proof.
  destruct text as [|c rest]; simpl; [done|]. intros ->. done.
Qed.

Lemma lines_from_clean s cur tail :
  clean s → lines_from false cur (s +:+ tail) = lines_from false (cur +:+ s) tail.
Proof.
  unfold clean. revert cur. induction s as [|c s IH]; intros cur; simpl.
  - by rewrite app_nil_r_string.
  - intros [Hc Hs]%andb_true_iff. unfold is_newline in Hc.
    apply negb_true_iff, orb_false_iff in Hc as [-> ->].
    rewrite IH by done. by rewrite app_assoc_string.
Qed.

Lemma clean_starts s tail :
  clean s → s ≠ "" → starts_with_LF (s +:+ tail) = false.
Proof.
  destruct s as [|c s]; [done|]. unfold clean. simpl.
  intros [Hc _]%andb_true_iff _. unfold is_newline in Hc.
  by apply negb_true_iff, orb_false_iff in Hc as [-> _].
Qed.

(** One record after the end of a line. *)
Lemma lines_from_record s :
  clean s → lines_from false "" (s +:+ String LF "") = [s].
Proof. intros Hs. by rewrite lines_from_clean. Qed.

Lemma ends_line_cons c rest :
  ends_line (String c rest) →
  (rest = "" ∧ is_newline c = true) ∨ (rest ≠ "" ∧ ends_line rest).
Proof.
  intros (body & c' & Heq & Hc'). destruct body as [|b body]; simpl in Heq.
  - injection Heq as -> ->. by left.
  - injection Heq as -> ->. right. split; [by destruct body|]. by exists body, c'.
Qed.

Lemma ends_line_tail c rest : ends_line rest → ends_line (String c rest).
Proof. intros (body & c' & -> & Hc'). by exists (String c body), c'. Qed.

Lemma ends_line_one c : is_newline c = true → ends_line (String c "").
Proof. intros Hc. by exists "", c. Qed.

Lemma lines_from_terminated text cr cur tail :
  starts_with_LF tail = false →
  (text = "" ∧ cur = "") ∨ ends_line text →
  lines_from cr cur (text +:+ tail) = (lines_from cr cur text ++ lines_from false "" tail)%list.
Proof.
  intros Htail. revert cr cur. induction text as [|c rest IH]; intros cr cur Hend.
  - destruct Hend as [[_ ->]|(body & c & Heq & _)]; [|by destruct body].
    simpl. by apply lines_from_flag.
  - destruct Hend as [[? _]|Hend]; [done|].
    assert ((rest = "" ∧ "" = "") ∨ ends_line rest → is_newline c = true →
            (rest = "" ∧ "" = "") ∨ ends_line rest) as _ by done.
    apply ends_line_cons in Hend.
    change (String c rest +:+ tail) with (String c (rest +:+ tail)).
    cbn [lines_from].
    destruct (Ascii.eqb c LF) eqn:HLF.
    { assert ((rest = "" ∧ "" = "") ∨ ends_line rest) as Hrest
        by (destruct Hend as [[-> _]|[_ ?]]; [by left|by right]).
      destruct cr; [by apply IH|]. by rewrite (IH false "" Hrest). }
    destruct (Ascii.eqb c CR) eqn:HCR.
    { assert ((rest = "" ∧ "" = "") ∨ ends_line rest) as Hrest
        by (destruct Hend as [[-> _]|[_ ?]]; [by left|by right]).
      by rewrite (IH true "" Hrest). }
    destruct Hend as [[_ Hc]|[_ Hrest]].
    + unfold is_newline in Hc. by rewrite HLF, HCR in Hc.
    + apply IH. by right.
Qed.

Lemma lines_from_open text cr cur s :
  clean s → s ≠ "" →
  (text = "" ∧ cur ≠ "") ∨ (text ≠ "" ∧ ¬ ends_line text) →
  ∃ init line,
    lines_from cr cur text = (init ++ [line])%list ∧
    lines_from cr cur (text +:+ s +:+ String LF "") = (init ++ [line +:+ s])%list.
Proof.
  intros Hs Hne. revert cr cur. induction text as [|c rest IH]; intros cr cur Hopen.
  - destruct Hopen as [[_ Hcur]|[? _]]; [|done].
    exists [], cur. simpl. split.
    + by destruct (String.eqb_spec cur "").
    + rewrite lines_from_flag by by apply clean_starts.
      by rewrite lines_from_clean.
  - destruct Hopen as [[? _]|[_ Hopen]]; [done|].
    change (String c rest +:+ s +:+ String LF "")
      with (String c (rest +:+ s +:+ String LF "")).
    cbn [lines_from].
    assert (is_newline c = true →
            (rest = "" ∧ "" ≠ "") ∨ (rest ≠ "" ∧ ¬ ends_line rest)) as Hnl.
    { intros Hc. right. split.
      - intros ->. apply Hopen. by apply ends_line_one.
      - intros Hrest. apply Hopen. by apply ends_line_tail. }
    destruct (Ascii.eqb c LF) eqn:HLF.
    { destruct (IH false "" (Hnl ltac:(unfold is_newline; by rewrite HLF)))
        as (init & line & H1 & H2).
      destruct cr.
      - exists init, line. by split.
      - exists (cur :: init), line. rewrite H1, H2. by split. }
    destruct (Ascii.eqb c CR) eqn:HCR.
    { destruct (IH true "" (Hnl ltac:(unfold is_newline; by rewrite HCR, orb_true_r)))
        as (init & line & H1 & H2).
      exists (cur :: init), line. rewrite H1, H2. by split. }
    apply IH. destruct rest as [|c' rest'].
    + left. split; [done|]. by destruct cur.
    + right. split; [done|]. intros Hrest. apply Hopen. by apply ends_line_tail.
Qed.

Lemma of_Z_clean n : clean (PyStr.of_Z n).
Proof.
  pose proof (of_Z_no_space n) as Hn. unfold clean.
  induction (PyStr.of_Z n) as [|c s IH]; simpl in *; [done|].
  apply andb_true_iff in Hn as [Hc Hs]. rewrite (IH Hs), andb_true_r.
  apply negb_true_iff. apply negb_true_iff in Hc.
  unfold is_newline, LF, CR.
  destruct (Ascii.eqb_spec c "010") as [->|_]; [done|].
  by destruct (Ascii.eqb_spec c "013") as [->|_].
Qed.

Lemma of_Z_nonempty n : PyStr.of_Z n ≠ "".
Proof.
  intros Hn. pose proof (int_of_Z n) as Hi. by rewrite Hn in Hi.
Qed.

(** After a text that ends where a line ends, the appended record is a
    line of its own. *)
Lemma ledger_lines_append text avid :
  terminated text →
  ledger_lines (ledger_append text avid) = (ledger_lines text ++ [PyStr.of_Z avid])%list.
Proof.
  intros Hterm. unfold ledger_lines, ledger_append.
  rewrite lines_from_terminated.
  - by rewrite (lines_from_record _ (of_Z_clean avid)).
  - apply clean_starts; [apply of_Z_clean|apply of_Z_nonempty].
  - destruct Hterm as [->|Hend]; [by left|by right].
Qed.

Lemma terminated_append text avid : terminated (ledger_append text avid).
Proof.
  right. exists (text +:+ PyStr.of_Z avid), LF. split; [|done].
  unfold ledger_append. by rewrite app_assoc_string.
Qed.

Lemma ledger_lines_appends text ids :
  terminated text →
  ledger_lines (foldl ledger_append text ids)
  = (ledger_lines text ++ (PyStr.of_Z <$> ids))%list.
Proof.
  revert text. induction ids as [|avid ids IH]; intros text Hterm; simpl.
  - by rewrite app_nil_r.
  - rewrite IH by apply terminated_append.
    rewrite ledger_lines_append by done. by rewrite <- app_assoc.
Qed.

(** After a text whose last line has no terminator, the appended record
    continues that line. *)
Lemma ledger_lines_glue text avid :
  ¬ terminated text →
  ∃ init line,
    ledger_lines text = (init ++ [line])%list ∧
    ledger_lines (ledger_append text avid) = (init ++ [line +:+ PyStr.of_Z avid])%list.
Proof.
  intros Hopen. unfold ledger_lines, ledger_append.
  apply lines_from_open; [apply of_Z_clean|apply of_Z_nonempty|].
  right. split.
  - intros ->. apply Hopen. by left.
  - intros Hend. apply Hopen. by right.
Qed.

Lemma holds_lines file st :
  progress_log st = ledger_lines <$> file →
  progress_lines st = ledger_lines (text_of file).
Proof. unfold progress_lines. intros ->. by destruct file. Qed.

End LedgerText.

(** X1: the round trip of the progress ledger.  When the file is
    missing, empty or ends with a line terminator, the bytes that
    [log_progress] appends are a line of their own: the item is in the
    set that [load_progress] reads back, next to what the ledger held
    before. *)
Theorem progress_round_trip (file : option string) (avid : Z)
    (st st' : State) (s : gset Z) :
  progress_log st = ledger_lines <$> file →
  terminated (text_of file) →
  load_progress st = (Ok s, st) →
  log_progress avid st = (Ok tt, st') →
  progress_log st' = Some (ledger_lines (ledger_append (text_of file) avid)) ∧
  load_progress st' = (Ok (s ∪ {[avid]}), st').
Proof.
  intros Hfile Hterm Hload%load_progress_lines Hlog.
  assert (st' = (log_progress avid st).2) as -> by by rewrite Hlog.
  assert (progress_lines (log_progress avid st).2
          = (progress_lines st ++ (PyStr.of_Z <$> [avid]))%list) as Hlines by done.
  split.
  - rewrite (ledger_lines_append _ _ Hterm), <- (holds_lines _ _ Hfile). done.
  - apply load_progress_lines.
    rewrite Hlines, parse_progress_app, Hload, parse_progress_of_Z. simpl.
    by rewrite (right_id_L ∅ (∪)).
Qed.

Lemma progress_round_trip_witness :
  let st := start [] (Some (ledger_lines Cases.edited_text)) 0 in
  ledger_lines Cases.edited_text = ["101"; ""] ∧
  load_progress (log_progress 102 st).2
  = (Ok ({[101]} ∪ {[102]}), (log_progress 102 st).2).
Proof.
  intros st. split; [reflexivity|].
  apply (progress_round_trip (Some Cases.edited_text) 102 st (log_progress 102 st).2 {[101]}).
  - reflexivity.
  - right. exists ("101" +:+ String CR (String LF "")), LF. by split.
  - by vm_compute.
  - reflexivity.
Defined.

(** X21: a ledger whose last line has no terminator.  The bytes that
    [log_progress] appends then continue that line: the file reads as
    before except for its last line, which has the decimal ID glued to
    it, and the ID is not a line of the file. *)
Theorem unterminated_ledger_glues (text : string) (avid : Z) :
  ¬ terminated text →
  ∃ init line,
    ledger_lines text = (init ++ [line])%list ∧
    ledger_lines (ledger_append text avid) = (init ++ [line +:+ PyStr.of_Z avid])%list.
Proof. apply ledger_lines_glue. Qed.

Lemma unterminated_ledger_glues_witness :
  ledger_lines (ledger_append Cases.unterminated_text 102) = ["101102"] ∧
  parse_progress (ledger_lines (ledger_append Cases.unterminated_text 102))
  = Some {[101102]}.
Proof.
  destruct (unterminated_ledger_glues Cases.unterminated_text 102)
    as (init & line & Hbefore & Hafter).
  - intros [Hempty|Hend]; [discriminate Hempty|].
    apply ends_line_cons in Hend as [[Hrest _]|[_ Hend]]; [discriminate Hrest|].
    apply ends_line_cons in Hend as [[Hrest _]|[_ Hend]]; [discriminate Hrest|].
    apply ends_line_cons in Hend as [[_ Hc]|[Hrest _]]; [discriminate Hc|done].
  - split; [|by vm_compute]. rewrite Hafter.
    change (ledger_lines Cases.unterminated_text) with ([] ++ ["101"])%list in Hbefore.
    apply app_inj_tail in Hbefore as [<- <-]. reflexivity.
Defined.

(** ** What a run may write *)

#[export] Instance writes_preorder Pev Perr Pprog : PreOrder (writes Pev Perr Pprog).
Proof.
  split.
  - intros st. split; exists []; by rewrite app_nil_r.
  - intros a b c [(e1 & He1 & ?) (r1 & Hr1 & ?) (p1 & Hp1 & ?)]
                 [(e2 & He2 & ?) (r2 & Hr2 & ?) (p2 & Hp2 & ?)].
    split.
    + exists (e1 ++ e2)%list. rewrite He2, He1, app_assoc. by rewrite Forall_app.
    + exists (r1 ++ r2)%list. rewrite Hr2, Hr1, app_assoc. by rewrite Forall_app.
    + exists (p1 ++ p2)%list. rewrite Hp2, Hp1, app_assoc. by rewrite Forall_app.
Qed.

Lemma preserves_bind_ret (R : relation State) `{!PreOrder R} {A B}
    (P : A → Prop) (c : M A) (f : A → M B) :
  (∀ st a st', c st = (Ok a, st') → P a) →
  preserves R c → (∀ a, P a → preserves R (f a)) → preserves R (c ≫= f).
Proof.
  intros Hret Hc Hf st. specialize (Hc st). specialize (Hret st). mstep.
  destruct (c st) as [[a|e|code] st1]; simpl in *; [|done..].
  etransitivity; [exact Hc|]. apply Hf. by eapply Hret.
Qed.

Lemma create_directories_returns w avid st a st' :
  create_directories w avid st = (Ok a, st') →
  a = (merge_dir w avid, audio_dir w avid, video_dir w avid).
Proof.
  unfold create_directories, os_makedirs, emit. mstep.
  destruct (makedirs w (merge_dir w avid)); [done|].
  destruct (makedirs w _); [done|]. destruct (makedirs w _); [done|].
  by intros [= <- _].
Qed.

Section Track.

(** Every method keeps a relation that is kept by the calls it may make
    ([allowed]), by the error lines it may write ([label_ok]), by the
    counting of requests and by the assignment of the lease. *)
Context (w : World) (R : relation State) `{!PreOrder R}.
Context (allowed : Event → Prop) (label_ok : string → Prop).
Context (R_emit : ∀ ev, allowed ev → preserves R (emit w ev)).
Context (R_log_error : ∀ label, label_ok label → preserves R (log_error w label)).

Lemma track_os_makedirs path :
  allowed (Makedirs path) → preserves R (os_makedirs w path).
Proof.
  intros Hp. unfold os_makedirs. apply preserves_bind; [done|by apply R_emit|].
  intros _. destruct (makedirs w path); auto with flow.
Qed.

Lemma track_create_directories avid :
  (∀ path, path ∈ item_dirs w avid → allowed (Makedirs path)) →
  preserves R (create_directories w avid).
Proof.
  intros Hdirs. unfold create_directories. cbv zeta.
  apply preserves_bind; [done| |intros _].
  { apply track_os_makedirs, Hdirs. set_solver. }
  apply preserves_bind; [done| |intros _].
  { apply track_os_makedirs, Hdirs. unfold item_dirs, audio_dir. set_solver. }
  apply preserves_bind; [done| |intros _; auto with flow].
  apply track_os_makedirs, Hdirs. unfold item_dirs, video_dir. set_solver.
Qed.

Lemma track_run_command avid command :
  allowed (Shell command) → label_ok (PyStr.of_Z avid) →
  preserves R (run_command w avid command).
Proof.
  intros Hc Hl. unfold run_command, subprocess_run_shell.
  apply preserves_try_except; [done| |].
  - apply preserves_bind; [done| |].
    + apply preserves_bind; [done|by apply R_emit|]. intros _.
      destruct (shell w command); auto with flow.
    + intros rc. destruct (rc =? 0); [auto with flow|by apply R_log_error].
  - intros e. destruct e; by apply R_log_error.
Qed.

Lemma track_generate_and_run_commands avid p m a v :
  allowed (Shell (yutto_command avid p m)) → label_ok (PyStr.of_Z avid) →
  preserves R (generate_and_run_commands w avid p m a v).
Proof.
  intros Hc Hl. unfold generate_and_run_commands. simpl mapM.
  apply preserves_bind; [done| |auto with flow].
  apply preserves_bind; [done|by apply track_run_command|]. intros ?.
  auto with flow.
Qed.

Lemma track_extract_cover_image v :
  allowed (Exec (ffmpeg_command v)) → label_ok (PosixPath.basename v) →
  preserves R (extract_cover_image w v).
Proof.
  intros Hc Hl. unfold extract_cover_image, subprocess_run_check.
  apply preserves_try_except; [done| |].
  - apply preserves_bind; [done|by apply R_emit|]. intros _.
    destruct (exec w _) as [[| |]|]; auto with flow.
  - intros e. destruct e; first [by apply R_log_error | auto with flow].
Qed.

Lemma track_cover_files root files :
  (∀ v, v ∈ file_paths root files →
        allowed (Exec (ffmpeg_command v)) ∧ label_ok (PosixPath.basename v)) →
  preserves R (cover_files w root files).
Proof.
  induction files as [|file files IH]; intros Hall; simpl; [auto with flow|].
  rewrite file_paths_cons in Hall.
  destruct (PyStr.endswith file ".mp4").
  - apply preserves_bind; [done| |intros _].
    + apply track_extract_cover_image; apply Hall; by left.
    + apply IH. intros v Hv. apply Hall. by right.
  - apply preserves_bind; [done|auto with flow|]. intros _. by apply IH.
Qed.

Lemma track_cover_walk dirs :
  (∀ v, v ∈ video_paths dirs →
        allowed (Exec (ffmpeg_command v)) ∧ label_ok (PosixPath.basename v)) →
  preserves R (cover_walk w dirs).
Proof.
  induction dirs as [|[root files] dirs IH]; intros Hall; simpl; [auto with flow|].
  rewrite video_paths_cons in Hall.
  apply preserves_bind; [done| |intros _].
  - apply track_cover_files. intros v Hv. apply Hall, elem_of_app. by left.
  - apply IH. intros v Hv. apply Hall, elem_of_app. by right.
Qed.

Lemma track_checkpoint index :
  allowed Input → preserves R (checkpoint w index).
Proof.
  intros Hin. unfold checkpoint. destruct (_ =? 0); [|auto with flow].
  apply preserves_bind; [done|by apply R_emit|]. intros _.
  destruct (operator w index); auto with flow.
Qed.

Lemma track_process_item index avid :
  item_tracked w R allowed label_ok avid → preserves R (process_item w index avid).
Proof.
  intros (Hdirs & Hshell & Hcover & Hinput & Hlabel & Hprog). unfold process_item.
  apply (preserves_bind_ret R
           (fun a => a = (merge_dir w avid, audio_dir w avid, video_dir w avid))).
  - intros st a st'. apply create_directories_returns.
  - by apply track_create_directories.
  - intros a ->. apply preserves_bind; [done|auto with flow|]. intros st.
    apply preserves_bind; [done|by apply track_generate_and_run_commands|]. intros _.
    apply preserves_bind; [done|by apply track_cover_walk|]. intros _.
    apply preserves_bind; [done|done|]. intros _.
    by apply track_checkpoint.
Qed.

Lemma track_guarded_item index avid :
  item_tracked w R allowed label_ok avid → preserves R (guarded_item w index avid).
Proof.
  intros Hitem. unfold guarded_item.
  apply preserves_try_except; [done|by apply track_process_item|].
  intros _. apply R_log_error. apply Hitem.
Qed.

Context (R_fetch : ∀ st,
  R st {| proxy := proxy st; proxy_fetch_time := proxy_fetch_time st;
          error_log := error_log st; progress_log := progress_log st;
          clock := clock st; fetches := S (fetches st); error_writes := error_writes st;
          history := history st |}).
Context (R_lease : ∀ st p t,
  R st {| proxy := p; proxy_fetch_time := t;
          error_log := error_log st; progress_log := progress_log st;
          clock := clock st; fetches := fetches st; error_writes := error_writes st;
          history := history st |}).
Context (allowed_get : allowed (Get (ip_url w))) (allowed_sleep : allowed (Sleep 5)).

Lemma track_get_ip : preserves R (get_ip w (ip_url w)).
Proof. apply preserves_get_ip; auto. Qed.

Lemma track_check_ip_validity : preserves R (check_ip_validity w).
Proof. apply preserves_check_ip_validity with (url := ip_url w); auto. Qed.

Lemma track_run_loop index l :
  (∀ avid, avid ∈ l → item_tracked w R allowed label_ok avid) → preserves R (run_loop w index l).
Proof.
  revert index. induction l as [|avid rest IH]; intros index Hall; simpl;
    [auto with flow|].
  apply preserves_bind; [done|apply track_check_ip_validity|]. intros _.
  apply preserves_bind; [done| |intros _].
  - apply track_guarded_item, Hall. by left.
  - apply IH. intros x Hx. apply Hall. by right.
Qed.

End Track.

Section Writes.

Context (Pev : Event → Prop) (Perr Pprog : string → Prop).

Lemma writes_emit w ev : Pev ev → preserves (writes Pev Perr Pprog) (emit w ev).
Proof.
  intros Hev. apply preserves_modify. intros st. split; simpl.
  - exists [ev]. split; [done|]. by apply Forall_singleton.
  - exists []. by rewrite app_nil_r.
  - exists []. by rewrite app_nil_r.
Qed.

Lemma writes_log_error w label :
  Perr label → preserves (writes Pev Perr Pprog) (log_error w label).
Proof.
  intros Hl. apply preserves_log_error; intros st; split; simpl;
    try (exists []; by rewrite app_nil_r).
  exists [label]. split; [done|]. by apply Forall_singleton.
Qed.

Lemma writes_log_progress avid :
  Pprog (PyStr.of_Z avid) → preserves (writes Pev Perr Pprog) (log_progress avid).
Proof.
  intros Hl. apply preserves_modify. intros st. split; simpl.
  - exists []. by rewrite app_nil_r.
  - exists []. by rewrite app_nil_r.
  - exists [PyStr.of_Z avid]. split; [done|]. by apply Forall_singleton.
Qed.

Lemma writes_frame st p t n :
  writes Pev Perr Pprog st
    {| proxy := p; proxy_fetch_time := t;
       error_log := error_log st; progress_log := progress_log st;
       clock := clock st; fetches := n; error_writes := error_writes st; history := history st |}.
Proof. split; simpl; exists []; by rewrite app_nil_r. Qed.

End Writes.

Lemma run_with_work_list w st column completed :
  csv_avid w = inr column →
  load_progress st = (Ok completed, st) →
  run w st =
  try_except
    (get_ip w (ip_url w);;
     run_loop w 1 (remaining_avids (unique column) completed))
    (fun _ => sys_exit 1) st.
Proof.
  intros Hcsv Hload. unfold run, run_body, pd_read_csv. rewrite Hcsv.
  unfold try_except at 1 2.
  rewrite (bind_ok (mret column) _ st column st eq_refl).
  rewrite (bind_ok _ _ _ _ _ Hload).
  destruct ((get_ip w (ip_url w);; run_loop w 1 _) st) as [[[]|e|code] st1]; try done.
  by destruct e.
Qed.

(** Everything a run does is accounted for by its work list: each call
    it makes, each line it adds to a ledger. *)
Lemma run_writes w st column completed :
  csv_avid w = inr column →
  load_progress st = (Ok completed, st) →
  writes (run_event w (remaining_avids (unique column) completed))
         (run_error_line w (remaining_avids (unique column) completed))
         (run_progress_line (remaining_avids (unique column) completed))
         st (run w st).2.
Proof.
  intros Hcsv Hload. rewrite (run_with_work_list w st column completed Hcsv Hload).
  set (l := remaining_avids (unique column) completed).
  apply (preserves_try_except (writes (run_event w l) (run_error_line w l)
                                 (run_progress_line l))); [|intros _; apply preserves_exit; apply _].
  assert (∀ ev, run_event w l ev →
                preserves (writes (run_event w l) (run_error_line w l)
                             (run_progress_line l)) (emit w ev)) as Hemit.
  { intros ev Hev. by apply writes_emit. }
  assert (∀ label, run_error_line w l label →
                   preserves (writes (run_event w l) (run_error_line w l)
                                (run_progress_line l)) (log_error w label)) as Herr.
  { intros label Hl. by apply writes_log_error. }
  apply preserves_bind; [apply _| |intros _].
  - apply track_get_ip with (allowed := run_event w l);
      [apply _ | exact Hemit | intros; apply writes_frame..
      | reflexivity | reflexivity].
  - apply track_run_loop with (allowed := run_event w l)
                              (label_ok := run_error_line w l);
      [apply _ | exact Hemit | exact Herr | intros; apply writes_frame..
      | reflexivity | reflexivity |].
    intros avid Havid. split_and!.
    + intros path Hp. by exists avid.
    + intros p. by exists avid, p.
    + intros v Hv. split; [by exists avid, v|]. right. by exists avid, v.
    + done.
    + left. by exists avid.
    + apply writes_log_progress. by exists avid.
Qed.

(** X3: the calls of a run.  Every request of a run goes to the
    configured service, every pause lasts five seconds, and every
    directory made, every download command and every cover extraction
    belongs to an item of the remaining work list (an item of the
    column that the progress ledger does not hold). *)
Theorem run_calls_belong_to_remaining (w : World) (st : State)
    (column : list Z) (completed : gset Z) :
  csv_avid w = inr column →
  load_progress st = (Ok completed, st) →
  ∃ evs,
    history (run w st).2 = (history st ++ evs)%list ∧
    Forall (run_event w (remaining_avids (unique column) completed)) evs ∧
    ∀ avid, avid ∈ remaining_avids (unique column) completed →
            avid ∈ column ∧ avid ∉ completed.
Proof.
  intros Hcsv Hload.
  destruct (run_writes w st column completed Hcsv Hload) as [(evs & Hh & Hall) _ _].
  exists evs. split_and!; [done|done|].
  intros avid [Hout Hin]%list_elem_of_filter. split; [|done].
  apply unique_from_elem in Hin. tauto.
Qed.

(** X5: the error ledger of a run.  A run only appends to the error
    ledger, and each line it appends is an item of the remaining work
    list or the file name of one of the videos of such an item. *)
Theorem run_error_lines (w : World) (st : State)
    (column : list Z) (completed : gset Z) :
  csv_avid w = inr column →
  load_progress st = (Ok completed, st) →
  ∃ new,
    error_log (run w st).2 = (error_log st ++ new)%list ∧
    Forall (run_error_line w (remaining_avids (unique column) completed)) new.
Proof.
  intros Hcsv Hload.
  by destruct (run_writes w st column completed Hcsv Hload) as [_ ? _].
Qed.

(** ** More on the lease *)

Section LeaseMore.

Context (w : World).

Lemma unusable_attempt_step url st :
  unusable_reply (reply w (fetches st)) →
  try_except (attempt_body w url) (fun _ => sleep w 5;; mret None) st
  = (Ok None, failed_attempt w url st).
Proof.
  intros [Hfail|Hempty]; [by apply failed_attempt_step|].
  unfold attempt_body, requests_get, json_loads, sleep, emit, first_entry.
  mstep. unfold failed_attempt.
  destruct Hempty as [-> | ->]; cbn; by rewrite <- !app_assoc, <- !Z.add_assoc.
Qed.

Lemma granted_attempt_step url st e rest :
  reply w (fetches st) = Json (Some 200) (Some (e :: rest)) →
  try_except (attempt_body w url) (fun _ => sleep w 5;; mret None) st
  = (Ok (Some (Some (e :: rest))), asked w url st).
Proof.
  intros Hreply.
  unfold attempt_body, requests_get, json_loads, sleep, emit, first_entry.
  mstep. rewrite Hreply. reflexivity.
Qed.

Lemma get_ip_loop_unusable url n st :
  (∀ k, (k < n)%nat → unusable_reply (reply w (fetches st + k))) →
  get_ip_loop w n url st = (Exit 1, Nat.iter n (failed_attempt w url) st).
Proof.
  revert st. induction n as [|n IH]; intros st Hfail; [done|].
  rewrite Nat.iter_succ_r, get_ip_loop_S.
  unfold mbind at 1. unfold M_mbind, M_bind.
  rewrite unusable_attempt_step.
  - apply IH. intros k Hk.
    replace (fetches (failed_attempt w url st) + k)%nat
      with (fetches st + S k)%nat by (simpl; lia).
    apply Hfail. lia.
  - specialize (Hfail 0%nat). rewrite Nat.add_0_r in Hfail. apply Hfail. lia.
Qed.

Lemma get_ip_loop_granted url n k st e rest :
  (k < n)%nat →
  (∀ j, (j < k)%nat → unusable_reply (reply w (fetches st + j))) →
  reply w (fetches st + k) = Json (Some 200) (Some (e :: rest)) →
  get_ip_loop w n url st
  = (Ok (Some (e :: rest)), asked w url (Nat.iter k (failed_attempt w url) st)).
Proof.
  revert n st. induction k as [|k IH]; intros n st Hn Hfail Hgrant.
  - destruct n as [|n]; [lia|]. rewrite get_ip_loop_S.
    rewrite Nat.add_0_r in Hgrant.
    by rewrite (bind_ok _ _ _ _ _ (granted_attempt_step url st e rest Hgrant)).
  - destruct n as [|n]; [lia|]. rewrite get_ip_loop_S, Nat.iter_succ_r.
    rewrite (bind_ok _ _ st None (failed_attempt w url st)).
    + apply IH; [lia| |].
      * intros j Hj.
        replace (fetches (failed_attempt w url st) + j)%nat
          with (fetches st + S j)%nat by (simpl; lia).
        apply Hfail. lia.
      * replace (fetches (failed_attempt w url st) + k)%nat
          with (fetches st + S k)%nat by (simpl; lia).
        done.
    + apply unusable_attempt_step.
      specialize (Hfail 0%nat). rewrite Nat.add_0_r in Hfail. apply Hfail. lia.
Qed.

Lemma failed_attempts_state url k st :
  let st' := Nat.iter k (failed_attempt w url) st in
  history st' = (history st ++ concat (replicate k [Get url; Sleep 5]))%list ∧
  fetches st' = (fetches st + k)%nat ∧
  proxy st' = proxy st ∧ proxy_fetch_time st' = proxy_fetch_time st ∧
  error_log st' = error_log st ∧ progress_log st' = progress_log st.
Proof.
  induction k as [|k IH]; simpl.
  - rewrite app_nil_r. split_and!; try done; lia.
  - destruct IH as (Hh & Hf & Hp & Ht & He & Hl).
    rewrite Hh, Hf, Hp, Ht, He, Hl. split_and!; try done; try lia.
    rewrite <- app_assoc. f_equal.
    clear. induction k as [|k IH]; [done|].
    change (replicate (S k) [Get url; Sleep 5])
      with ([Get url; Sleep 5] :: replicate k [Get url; Sleep 5]).
    rewrite concat_cons, <- app_assoc, IH. done.
Qed.

End LeaseMore.

(** X9: a lease after retries.  When [k < 5] unusable answers are
    followed by one with status 200 whose first entry has an address
    and a port, [get_ip] returns [http://address:port] after exactly
    [k + 1] requests and [k] pauses, records it as the lease with the
    current time, and leaves the ledgers alone. *)
Theorem get_ip_after_retries (w : World) (url : string) (st : State)
    (k : nat) (e : Entry) (rest : list Entry) (a p : string) :
  (k < 5)%nat →
  (∀ j, (j < k)%nat → unusable_reply (reply w (fetches st + j))) →
  reply w (fetches st + k) = Json (Some 200) (Some (e :: rest)) →
  ip e = Some a → port e = Some p →
  ∃ st',
    get_ip w url st = (Ok ("http://" +:+ a +:+ ":" +:+ p), st') ∧
    proxy st' = Some ("http://" +:+ a +:+ ":" +:+ p) ∧
    proxy_fetch_time st' = clock st' ∧
    fetches st' = (fetches st + k + 1)%nat ∧
    history st' =
      (history st ++ concat (replicate k [Get url; Sleep 5]) ++ [Get url])%list ∧
    error_log st' = error_log st ∧ progress_log st' = progress_log st.
Proof.
  intros Hk Hfail Hgrant Hip Hport.
  destruct (failed_attempts_state w url k st) as (Hh & Hf & _ & _ & He & Hl).
  eexists. split.
  - unfold get_ip, max_retries.
    rewrite (bind_ok _ _ _ _ _ (get_ip_loop_granted w url 5 k st e rest Hk Hfail Hgrant)).
    unfold first_entry. mstep. simpl. rewrite Hip, Hport. reflexivity.
  - simpl. rewrite Hh, Hf, He, Hl. split_and!; try done; [lia|].
    by rewrite <- app_assoc.
Qed.

(** X10: a lease without an address.  When the answer that ends the
    retries has status 200 but its first entry lacks the address or the
    port, [get_ip] raises [KeyError] at once: no further request, no
    pause, and the lease and the ledgers stay as they were. *)
Theorem get_ip_entry_without_address (w : World) (url : string) (st : State)
    (k : nat) (e : Entry) (rest : list Entry) :
  (k < 5)%nat →
  (∀ j, (j < k)%nat → unusable_reply (reply w (fetches st + j))) →
  reply w (fetches st + k) = Json (Some 200) (Some (e :: rest)) →
  ip e = None ∨ port e = None →
  ∃ st',
    get_ip w url st = (Raise KeyError, st') ∧
    proxy st' = proxy st ∧ proxy_fetch_time st' = proxy_fetch_time st ∧
    fetches st' = (fetches st + k + 1)%nat ∧
    history st' =
      (history st ++ concat (replicate k [Get url; Sleep 5]) ++ [Get url])%list ∧
    error_log st' = error_log st ∧ progress_log st' = progress_log st.
Proof.
  intros Hk Hfail Hgrant Hbad.
  destruct (failed_attempts_state w url k st) as (Hh & Hf & Hp & Ht & He & Hl).
  exists (asked w url (Nat.iter k (failed_attempt w url) st)). split.
  - unfold get_ip, max_retries.
    rewrite (bind_ok _ _ _ _ _ (get_ip_loop_granted w url 5 k st e rest Hk Hfail Hgrant)).
    unfold first_entry. mstep. simpl.
    destruct (ip e) as [a|]; [|done]. destruct Hbad as [?| ->]; done.
  - simpl. rewrite Hh, Hf, He, Hl, Hp, Ht. split_and!; try done; [lia|].
    by rewrite <- app_assoc.
Qed.

(** X11: giving up on unusable answers.  Five answers in a row that are
    failures or carry status 200 without any entry make [get_ip] exit
    with status 1 after five requests, the lease unchanged. *)
Theorem get_ip_gives_up_on_unusable (w : World) (url : string) (st : State) :
  (∀ k, (k < 5)%nat → unusable_reply (reply w (fetches st + k))) →
  ∃ st',
    get_ip w url st = (Exit 1, st') ∧
    fetches st' = (fetches st + 5)%nat ∧
    history st' = (history st ++ concat (replicate 5 [Get url; Sleep 5]))%list ∧
    proxy st' = proxy st ∧ proxy_fetch_time st' = proxy_fetch_time st.
Proof.
  intros Hfail.
  destruct (failed_attempts_state w url 5 st) as (Hh & Hf & Hp & Ht & _ & _).
  exists (Nat.iter 5 (failed_attempt w url) st). split.
  - unfold get_ip, max_retries.
    by rewrite (bind_exit _ _ _ _ _ (get_ip_loop_unusable w url 5 st Hfail)).
  - by rewrite Hh, Hf, Hp, Ht.
Qed.

Lemma get_ip_sets_time w url st p st' :
  get_ip w url st = (Ok p, st') → proxy_fetch_time st' = clock st'.
Proof.
  unfold get_ip. mstep.
  destruct (get_ip_loop w max_retries url st) as [[data|e|code] st1]; [|done..].
  unfold first_entry. mstep.
  destruct data as [l|]; [|done]. destruct (head l) as [e1|]; [|done].
  destruct (ip e1); [|done]. destruct (port e1); [|done].
  by intros [= <- <-].
Qed.

(** X13: the lease after the check.  Whenever [check_ip_validity] ends
    normally, a lease is set and it is at most 300 seconds old. *)
Theorem checked_lease_is_fresh (w : World) (st st' : State) :
  check_ip_validity w st = (Ok tt, st') →
  ∃ p, proxy st' = Some p ∧ clock st' - proxy_fetch_time st' ≤ 300.
Proof.
  unfold check_ip_validity. mstep. destruct (lease_stale st) eqn:Hstale.
  - destruct (get_ip w (ip_url w) st) as [[p|e|code] st1] eqn:Hget; [|done..].
    intros [= <-]. exists p. simpl. split; [done|].
    rewrite (get_ip_sets_time _ _ _ _ _ Hget). lia.
  - intros [= <-]. unfold lease_stale in Hstale.
    destruct (proxy st) as [p|]; [|done]. exists p. split; [done|].
    apply Z.ltb_ge in Hstale. lia.
Qed.

(** ** The run as a whole *)

Lemma run_loop_exit_code w index l st code st' :
  run_loop w index l st = (Exit code, st') → code = 1.
Proof.
  revert index st. induction l as [|avid rest IH]; intros index st; [done|].
  simpl run_loop.
  destruct (check_ip_validity w st) as [[[]|e|c] st1] eqn:Hcheck.
  - rewrite (bind_ok _ _ _ _ _ Hcheck).
    destruct (guarded_item w index avid st1) as [[[]|e|c] st2] eqn:Hitem.
    + rewrite (bind_ok _ _ _ _ _ Hitem). apply IH.
    + by rewrite (bind_raise _ _ _ _ _ Hitem).
    + pose proof (never_exits_guarded_item w index avid st1 c) as Hne.
      by rewrite Hitem in Hne.
  - by rewrite (bind_raise _ _ _ _ _ Hcheck).
  - rewrite (bind_exit _ _ _ _ _ Hcheck). intros [= <- _].
    by eapply check_ip_validity_exit_code.
Qed.

(** X6: the exit status.  Whatever the world does, [run] ends normally
    or with exit status 1: no exception leaves it and no other status
    occurs. *)
Theorem run_exit_status (w : World) (st : State) :
  (run w st).1 = Ok tt ∨ (run w st).1 = Exit 1.
Proof.
  unfold run, try_except.
  destruct (run_body w st) as [[[]|e|code] st1] eqn:Hbody; simpl.
  - by left.
  - right. by destruct e.
  - right. f_equal. revert Hbody. unfold run_body, pd_read_csv. mstep.
    destruct (csv_avid w) as [e|column]; [done|].
    destruct (load_progress_cases st) as [[s ->] | ->]; [|done].
    destruct (get_ip w (ip_url w) st) as [[p|e|c] st2] eqn:Hget; [|done|].
    + intros Hloop. by eapply run_loop_exit_code.
    + intros [= <- _]. by eapply get_ip_exit_code.
Qed.

(** The turn of an item ends normally, or its processing raised and the
    write of the handler to the error ledger raised in turn. *)
Lemma guarded_item_cases w index avid st :
  (∃ st', guarded_item w index avid st = (Ok tt, st')) ∨
  (∃ e st1 e',
     process_item w index avid st = (Raise e, st1) ∧
     error_write w (error_writes st1) = Some e' ∧
     guarded_item w index avid st = (Raise e', refused st1)).
Proof.
  unfold guarded_item, try_except.
  pose proof (never_exits_process_item w index avid st) as Hne.
  destruct (process_item w index avid st) as [[[]|e|code] st1]; simpl in Hne.
  - left. by eexists.
  - rewrite log_error_eq.
    destruct (error_write w (error_writes st1)) as [e'|] eqn:Hw.
    + right. by exists e, st1, e'.
    + left. by eexists.
  - by destruct (Hne code).
Qed.

(** X7: what stops the loop.  The loop over the work list either runs to
    its end, or it stops at the lease check before some item, with the
    outcome and in the state that this check left, or it stops in the
    handler of some item whose processing raised, with the exception
    that the write to the error ledger raised; nothing else stops it. *)
Theorem run_loop_stopping_points (w : World) (index : Z)
    (l : list Z) (st : State) :
  (run_loop w index l st).1 = Ok tt ∨
  ∃ pre avid post st_a,
    l = (pre ++ avid :: post)%list ∧
    run_loop w index pre st = (Ok tt, st_a) ∧
    ((check_ip_validity w st_a = run_loop w index l st ∧
      (check_ip_validity w st_a).1 ≠ Ok tt) ∨
     (∃ st_b e st_c e',
        check_ip_validity w st_a = (Ok tt, st_b) ∧
        process_item w (index + Z.of_nat (length pre)) avid st_b = (Raise e, st_c) ∧
        error_write w (error_writes st_c) = Some e' ∧
        run_loop w index l st = (Raise e', refused st_c))).
Proof.
  revert index st. induction l as [|avid rest IH]; intros index st; [by left|].
  simpl run_loop.
  destruct (check_ip_validity w st) as [[[]|e|c] st1] eqn:Hcheck.
  - rewrite (bind_ok _ _ _ _ _ Hcheck).
    destruct (guarded_item_cases w index avid st1)
      as [[st2 Hitem]|(e & st2 & e' & Hproc & Hw & Hitem)].
    + rewrite (bind_ok _ _ _ _ _ Hitem).
      destruct (IH (index + 1) st2) as [Hok|(pre & x & post & st_a & -> & Hpre & Hc)];
        [by left|].
      right. exists (avid :: pre), x, post, st_a. split_and!; try done.
      * simpl run_loop.
        by rewrite (bind_ok _ _ _ _ _ Hcheck), (bind_ok _ _ _ _ _ Hitem).
      * replace (index + Z.of_nat (length (avid :: pre)))
          with (index + 1 + Z.of_nat (length pre)) by (rewrite length_cons; lia).
        exact Hc.
    + right. exists [], avid, rest, st. rewrite (bind_raise _ _ _ _ _ Hitem).
      split_and!; try done. right. exists st1, e, st2, e'.
      simpl length. rewrite Z.add_0_r. by split_and!.
  - right. exists [], avid, rest, st. rewrite (bind_raise _ _ _ _ _ Hcheck).
    split_and!; try done. left. by rewrite Hcheck.
  - right. exists [], avid, rest, st. rewrite (bind_exit _ _ _ _ _ Hcheck).
    split_and!; try done. left. by rewrite Hcheck.
Qed.

(** X8: nothing left to do.  When the progress ledger already holds
    every item of the column, a run still asks for a lease and does
    nothing else: it ends normally if [get_ip] does and with exit
    status 1 otherwise. *)
Theorem run_with_nothing_remaining (w : World) (st : State)
    (column : list Z) (completed : gset Z) :
  csv_avid w = inr column →
  load_progress st = (Ok completed, st) →
  (∀ avid, avid ∈ column → avid ∈ completed) →
  remaining_avids (unique column) completed = [] ∧
  run w st =
    (match (get_ip w (ip_url w) st).1 with Ok _ => Ok tt | _ => Exit 1 end,
     (get_ip w (ip_url w) st).2).
Proof.
  intros Hcsv Hload Hall.
  assert (remaining_avids (unique column) completed = []) as Hnil.
  { destruct (remaining_avids (unique column) completed) as [|x r] eqn:Hrem; [done|].
    assert (x ∈ remaining_avids (unique column) completed) as Hx
      by (rewrite Hrem; by left).
    apply list_elem_of_filter in Hx as [Hout Hin].
    apply unique_from_elem in Hin as [Hin _]. by destruct (Hout (Hall x Hin)). }
  split; [done|].
  rewrite (run_with_work_list w st column completed Hcsv Hload), Hnil.
  unfold try_except. mstep.
  destruct (get_ip w (ip_url w) st) as [[p|e|code] st1] eqn:Hget; simpl; try done.
  by rewrite (get_ip_exit_code w _ _ _ _ Hget).
Qed.

(** ** Paths *)

Section PathFacts.

#[local] Arguments String.append !_ _ / : simpl nomatch.

Lemma all_chars_app p x y :
  PyStr.all_chars p (x +:+ y) = PyStr.all_chars p x && PyStr.all_chars p y.
Proof. induction x as [|a x IH]; simpl; [done|]. rewrite IH. by destruct (p a). Qed.

Lemma uint_no_slash d : no_slash (NilEmpty.string_of_uint d).
Proof. unfold no_slash. induction d; simpl; by rewrite ?IHd. Qed.

Lemma of_Z_no_slash n : no_slash (PyStr.of_Z n).
Proof.
  unfold PyStr.of_Z. destruct n as [|p|p]; [done|..];
    unfold Z.to_int, NilZero.string_of_int, NilZero.string_of_uint.
  - destruct (Pos.to_uint p) eqn:Hp; try done; rewrite <- Hp; apply uint_no_slash.
  - destruct (Pos.to_uint p) eqn:Hp; try done; rewrite <- Hp;
      unfold no_slash; simpl; apply uint_no_slash.
Qed.

(** Two texts that agree and whose first slash ends a part without
    slash agree part by part. *)
Lemma split_at_slash a b s t :
  no_slash a → no_slash b →
  a +:+ String "/" s = b +:+ String "/" t → a = b ∧ s = t.
Proof.
  unfold no_slash. revert b. induction a as [|c a IH]; intros [|d b] Ha Hb Heq;
    simpl in *.
  - by injection Heq.
  - injection Heq as <- _. by apply andb_true_iff in Hb as [? _].
  - injection Heq as -> _. by apply andb_true_iff in Ha as [? _].
  - injection Heq as -> Heq.
    apply andb_true_iff in Ha as [_ Ha]. apply andb_true_iff in Hb as [_ Hb].
    destruct (IH b Ha Hb Heq) as [-> ->]. done.
Qed.

Lemma no_slash_startswith s ext : no_slash s → s ≠ "" → PyStr.startswith (s +:+ ext) "/" = false.
Proof.
  intros Hs Hne. destruct s as [|a s]; [done|].
  unfold no_slash in Hs. simpl in Hs. apply andb_true_iff in Hs as [Ha _].
  unfold PyStr.startswith.
  change (String a s +:+ ext) with (String a (s +:+ ext)). cbn [String.prefix].
  destruct (ascii_dec "/" a) as [<-|?]; [by vm_compute in Ha|done].
Qed.

Lemma not_endswith_slash d n :
  no_slash n → n ≠ "" → PyStr.endswith (d +:+ n) "/" = false.
Proof.
  intros Hn Hne. destruct (PyStr.endswith (d +:+ n) "/") eqn:Hend; [|done].
  apply endswith_spec in Hend as [x Hx].
  assert (PyStr.rfind "/" (d +:+ n) = PyStr.rfind "/" (x +:+ "/")) as Hr by by rewrite Hx.
  rewrite !rfind_app, (rfind_absent "/" n Hn) in Hr. simpl in Hr.
  pose proof (rfind_bounds "/" d) as Hb.
  assert (String.length (d +:+ n) = String.length (x +:+ "/")) as Hl by by rewrite Hx.
  rewrite !length_app_string in Hl. simpl in Hl.
  destruct n; [done|]. simpl in Hl. lia.
Qed.

(** [os.path.join(output_dir, name, leaf)] for a name without slash. *)
Lemma join_two od name leaf :
  no_slash name → name ≠ "" → PyStr.startswith leaf "/" = false →
  PosixPath.join od [name; leaf] = dir_prefix od +:+ name +:+ String "/" leaf.
Proof.
  intros Hn Hne Hleaf.
  change (PosixPath.join od [name; leaf])
    with (PosixPath.join2 (PosixPath.join od [name]) leaf).
  rewrite join_file.
  - unfold PosixPath.join2. rewrite Hleaf, (not_endswith_slash _ _ Hn Hne).
    destruct (String.eqb_spec (dir_prefix od +:+ name) "") as [Hempty|_].
    + destruct (dir_prefix od); [by destruct name|done].
    + simpl. by rewrite app_assoc_string.
  - rewrite <- (app_nil_r_string name). by apply no_slash_startswith.
Qed.

Lemma app_cancel_r x y s : x +:+ s = y +:+ s → x = y.
Proof.
  intros Heq.
  assert (String.length x = String.length y) as Hlen.
  { apply (f_equal String.length) in Heq. rewrite !length_app_string in Heq. lia. }
  revert y Heq Hlen. induction x as [|a x IH]; intros [|b y] Heq Hlen;
    try done; simpl in *.
  injection Heq as -> Heq. f_equal. apply IH; [done|lia].
Qed.

Lemma basename_join root file :
  no_slash file → PosixPath.basename (PosixPath.join root [file]) = file.
Proof.
  intros Hfile. rewrite join_file.
  - unfold PosixPath.basename.
    rewrite rfind_app, (rfind_absent "/" file Hfile), dir_prefix_sep. simpl.
    replace (Z.to_nat (Z.of_nat (String.length (dir_prefix root)) - 1 + 1))
      with (String.length (dir_prefix root)) by lia.
    apply drop_app_length.
  - destruct file as [|a file]; [done|].
    rewrite <- (app_nil_r_string (String a file)). by apply no_slash_startswith.
Qed.

End PathFacts.

Lemma item_dir_form w n leaf :
  PyStr.startswith leaf "/" = false →
  PosixPath.join (output_dir w) [PyStr.of_Z n; leaf]
  = dir_prefix (output_dir w) +:+ PyStr.of_Z n +:+ String "/" leaf.
Proof.
  intros Hleaf. apply join_two; [apply of_Z_no_slash|apply of_Z_nonempty|done].
Qed.

Lemma merge_dir_among_item_dirs w avid other :
  merge_dir w avid ∈ item_dirs w other → avid = other.
Proof.
  intros Hin. unfold item_dirs, merge_dir, audio_dir, video_dir in Hin.
  rewrite !item_dir_form in Hin by done.
  assert (∀ leaf, dir_prefix (output_dir w) +:+ PyStr.of_Z avid +:+ "/merge"
                  = dir_prefix (output_dir w) +:+ PyStr.of_Z other +:+ String "/" leaf →
                  avid = other) as Hinj.
  { intros leaf Heq. apply (inj (String.app _)) in Heq.
    apply split_at_slash in Heq as [Heq _]; [|apply of_Z_no_slash..].
    by apply of_Z_inj. }
  repeat (apply elem_of_cons in Hin as [Hin|Hin]; [by eapply Hinj|]).
  by apply elem_of_nil in Hin.
Qed.

(** X18: the directories of the items.  The merge directory of an item
    is the output directory, the decimal form of the item and [merge],
    separated by slashes; two items never share a merge directory, and
    the merge directory of one is none of the three directories of
    another. *)
Theorem merge_dir_of_item (w : World) (avid : Z) :
  merge_dir w avid
    = dir_prefix (output_dir w) +:+ PyStr.of_Z avid +:+ "/merge" ∧
  ∀ other, merge_dir w avid ∈ item_dirs w other → avid = other.
Proof.
  split; [by apply item_dir_form|]. apply merge_dir_among_item_dirs.
Qed.

Lemma yutto_command_inj avid p m other q m' :
  yutto_command avid p m = yutto_command other q m' → avid = other.
Proof.
  unfold yutto_command. cbv zeta. intros Heq.
  apply (inj (String.app "yutto ")) in Heq.
  rewrite !app_assoc_string in Heq.
  apply (inj (String.app "https://www.bilibili.com/video/av")) in Heq.
  apply split_at_slash in Heq as [Heq _]; [|apply of_Z_no_slash..].
  by apply of_Z_inj.
Qed.

(** X4: completed items are left alone.  In a run, no merge directory is
    made and no download command is run for an item that the progress
    ledger held at the start. *)
Theorem completed_items_are_not_touched (w : World) (st : State)
    (column : list Z) (completed : gset Z) :
  csv_avid w = inr column →
  load_progress st = (Ok completed, st) →
  ∃ evs,
    history (run w st).2 = (history st ++ evs)%list ∧
    ∀ avid, avid ∈ completed →
      (Makedirs (merge_dir w avid) ∉ evs) ∧
      (∀ p m, Shell (yutto_command avid p m) ∉ evs).
Proof.
  intros Hcsv Hload.
  destruct (run_writes w st column completed Hcsv Hload) as [(evs & Hh & Hall) _ _].
  assert (∀ avid, avid ∈ remaining_avids (unique column) completed →
                  avid ∉ completed) as Hrem.
  { by intros avid [? _]%list_elem_of_filter. }
  exists evs. split; [done|]. intros avid Hdone.
  rewrite Forall_forall in Hall. split.
  - intros Hin. destruct (Hall _ Hin) as (other & Hother & Hdir).
    apply merge_dir_among_item_dirs in Hdir as ->. by destruct (Hrem _ Hother).
  - intros p m Hin. destruct (Hall _ Hin) as (other & q & Hother & Heq).
    apply yutto_command_inj in Heq as ->. by destruct (Hrem _ Hother).
Qed.

(** X17: the error line of a cover.  When the extraction tool returns a
    failure status on a file of a directory, [extract_cover_image]
    writes the name of the file, without its directory, to the error
    ledger.  If the write goes through, the call ends normally and the
    error ledger has gained exactly that name; if the write is refused,
    its exception leaves the call and the error ledger is as before.
    The progress ledger is left alone either way. *)
Theorem cover_failure_records_file_name (w : World) (root file : string)
    (rc : Z) (st : State) :
  no_slash file →
  exec w (ffmpeg_command (PosixPath.join root [file])) = Returned rc → rc ≠ 0 →
  (error_write w (error_writes st) = None →
   ∃ st',
     extract_cover_image w (PosixPath.join root [file]) st = (Ok tt, st') ∧
     error_log st' = (error_log st ++ [file])%list ∧
     progress_log st' = progress_log st) ∧
  (∀ e, error_write w (error_writes st) = Some e →
   ∃ st',
     extract_cover_image w (PosixPath.join root [file]) st = (Raise e, st') ∧
     error_log st' = error_log st ∧
     progress_log st' = progress_log st).
Proof.
  intros Hfile Hexec Hrc. split.
  - intros Hwrite.
    destruct (cover_failure_is_recorded w _ rc st Hexec Hrc Hwrite)
      as (st' & Hcall & Herr & Hprog).
    exists st'. by rewrite Herr, basename_join.
  - intros e Hwrite.
    apply (cover_failure_write_refused w _ rc st e Hexec Hrc Hwrite).
Qed.

(** X19: where the files go.  For a batch name without slash, the error
    ledger and the progress ledger are different files of the output
    directory, and the operational log is the file of the progress
    ledger exactly when the batch is named [progress], and the file of
    the error ledger exactly when it is named [error]. *)
Theorem log_file_meets_ledger (batch_name : string) :
  no_slash batch_name →
  let output_dir := main_output_dir batch_name in
  error_log_path output_dir ≠ progress_log_path output_dir ∧
  (log_file_path output_dir batch_name = progress_log_path output_dir
   ↔ batch_name = "progress") ∧
  (log_file_path output_dir batch_name = error_log_path output_dir
   ↔ batch_name = "error").
Proof.
  intros Hname output_dir.
  unfold error_log_path, progress_log_path, log_file_path.
  assert (PyStr.startswith (batch_name +:+ "_log.txt") "/" = false) as Hstart.
  { destruct batch_name as [|a s]; [done|].
    by apply no_slash_startswith. }
  rewrite !join_file by done. split_and!.
  - intros Heq. by apply (inj (String.app _)) in Heq.
  - split.
    + intros Heq. apply (inj (String.app _)) in Heq.
      by apply (app_cancel_r _ "progress" "_log.txt").
    + by intros ->.
  - split.
    + intros Heq. apply (inj (String.app _)) in Heq.
      by apply (app_cancel_r _ "error" "_log.txt").
    + by intros ->.
Qed.

(** ** The order of the progress ledger *)

#[export] Instance same_progress_preorder : PreOrder same_progress.
Proof. split; [by intros st|]. intros a b c ? ?. unfold same_progress in *. congruence. Qed.

Section ProgressOrder.

Context (w : World).

Lemma quiet_emit ev : True → preserves same_progress (emit w ev).
Proof. intros _. by apply preserves_modify. Qed.

Lemma quiet_log_error label : True → preserves same_progress (log_error w label).
Proof. intros _. by apply preserves_log_error. Qed.

Lemma process_item_progress index avid st :
  progress_lines (process_item w index avid st).2 = progress_lines st ∨
  progress_lines (process_item w index avid st).2
    = (progress_lines st ++ [PyStr.of_Z avid])%list.
Proof.
  unfold process_item, progress_lines.
  pose proof (track_create_directories w same_progress (fun _ => True)
                (fun _ => True) quiet_emit quiet_log_error avid (fun _ _ => I) st)
    as H1.
  destruct (create_directories w avid st) as [[[[m a] v]|e|c] st1] eqn:Hdirs;
    unfold same_progress in H1; simpl in H1.
  2: { rewrite (bind_raise _ _ _ _ _ Hdirs). left. simpl. congruence. }
  2: { rewrite (bind_exit _ _ _ _ _ Hdirs). left. simpl. congruence. }
  rewrite (bind_ok _ _ _ _ _ Hdirs). cbv beta iota.
  rewrite (bind_ok get_state _ st1 st1 st1 eq_refl).
  pose proof (track_generate_and_run_commands w same_progress (fun _ => True)
                (fun _ => True) quiet_emit quiet_log_error avid (proxy st1) m a v I I st1)
    as H2.
  destruct (generate_and_run_commands w avid (proxy st1) m a v st1)
    as [[[]|e|c] st2] eqn:Hgen; unfold same_progress in H2; simpl in H2.
  2: { rewrite (bind_raise _ _ _ _ _ Hgen). left. simpl. congruence. }
  2: { rewrite (bind_exit _ _ _ _ _ Hgen). left. simpl. congruence. }
  rewrite (bind_ok _ _ _ _ _ Hgen).
  pose proof (track_cover_walk w same_progress (fun _ => True) (fun _ => True)
                quiet_emit quiet_log_error (walk w m) (fun _ _ => conj I I) st2) as H3.
  destruct (cover_walk w (walk w m) st2) as [[[]|e|c] st3] eqn:Hwalk;
    unfold same_progress in H3; simpl in H3.
  2: { rewrite (bind_raise _ _ _ _ _ Hwalk). left. simpl. congruence. }
  2: { rewrite (bind_exit _ _ _ _ _ Hwalk). left. simpl. congruence. }
  rewrite (bind_ok _ _ _ _ _ Hwalk).
  rewrite (bind_ok (log_progress avid) _ st3 tt (log_progress avid st3).2 eq_refl).
  pose proof (track_checkpoint w same_progress (fun _ => True) quiet_emit index I
                (log_progress avid st3).2) as H4.
  unfold same_progress in H4. rewrite H4. right. simpl. congruence.
Qed.

Lemma guarded_item_progress index avid st :
  progress_lines (guarded_item w index avid st).2 = progress_lines st ∨
  progress_lines (guarded_item w index avid st).2
    = (progress_lines st ++ [PyStr.of_Z avid])%list.
Proof.
  pose proof (process_item_progress index avid st) as Hitem.
  unfold guarded_item, try_except.
  destruct (process_item w index avid st) as [[[]|e|c] st1]; [done| |done].
  pose proof (quiet_log_error (PyStr.of_Z avid) I st1) as Hq.
  unfold same_progress in Hq. unfold progress_lines in *. simpl in *.
  by rewrite Hq.
Qed.

Lemma run_loop_progress index l st :
  ∃ ids, ids `sublist_of` l ∧
         progress_lines (run_loop w index l st).2
         = (progress_lines st ++ (PyStr.of_Z <$> ids))%list.
Proof.
  revert index st. induction l as [|avid rest IH]; intros index st.
  - exists []. by rewrite app_nil_r.
  - simpl run_loop.
    pose proof (off_ledger_check_ip_validity w st) as [_ Hc].
    destruct (check_ip_validity w st) as [[[]|e|c] st1] eqn:Hcheck; simpl in Hc.
    2: { rewrite (bind_raise _ _ _ _ _ Hcheck). exists []. split; [apply sublist_nil_l|].
         unfold progress_lines. simpl. by rewrite Hc, app_nil_r. }
    2: { rewrite (bind_exit _ _ _ _ _ Hcheck). exists []. split; [apply sublist_nil_l|].
         unfold progress_lines. simpl. by rewrite Hc, app_nil_r. }
    rewrite (bind_ok _ _ _ _ _ Hcheck).
    assert (progress_lines st1 = progress_lines st) as Hst1
      by (unfold progress_lines; by rewrite Hc).
    pose proof (guarded_item_progress index avid st1) as Hp.
    destruct (guarded_item w index avid st1) as [[[]|e|c] st2] eqn:Hitem; simpl in Hp.
    2: { rewrite (bind_raise _ _ _ _ _ Hitem). simpl. destruct Hp as [Hp|Hp].
         - exists []. split; [apply sublist_nil_l|]. by rewrite Hp, Hst1, app_nil_r.
         - exists [avid]. split; [apply sublist_skip, sublist_nil_l|].
           by rewrite Hp, Hst1. }
    2: { rewrite (bind_exit _ _ _ _ _ Hitem). simpl. destruct Hp as [Hp|Hp].
         - exists []. split; [apply sublist_nil_l|]. by rewrite Hp, Hst1, app_nil_r.
         - exists [avid]. split; [apply sublist_skip, sublist_nil_l|].
           by rewrite Hp, Hst1. }
    rewrite (bind_ok _ _ _ _ _ Hitem).
    destruct (IH (index + 1) st2) as (ids & Hsub & Hrest).
    destruct Hp as [Hp|Hp].
    + exists ids. split; [by apply sublist_cons|]. by rewrite Hrest, Hp, Hst1.
    + exists (avid :: ids). split; [by apply sublist_skip|].
      rewrite Hrest, Hp, Hst1, <- app_assoc. done.
Qed.

End ProgressOrder.

(** What a run appends to the progress ledger. *)
Lemma run_progress w st column completed :
  csv_avid w = inr column →
  load_progress st = (Ok completed, st) →
  ∃ ids,
    ids `sublist_of` remaining_avids (unique column) completed ∧
    progress_lines (run w st).2 = (progress_lines st ++ (PyStr.of_Z <$> ids))%list ∧
    load_progress (run w st).2 = (Ok (completed ∪ list_to_set ids), (run w st).2).
Proof.
  intros Hcsv Hload.
  rewrite (run_with_work_list w st column completed Hcsv Hload).
  set (l := remaining_avids (unique column) completed).
  assert (∃ ids, ids `sublist_of` l ∧
            progress_lines
              (try_except (get_ip w (ip_url w);; run_loop w 1 l)
                          (fun _ => sys_exit 1) st).2
            = (progress_lines st ++ (PyStr.of_Z <$> ids))%list) as (ids & Hsub & Hp).
  { unfold try_except.
    assert (preserves same_progress (get_ip w (ip_url w))) as Hget.
    { apply preserves_get_ip; [apply _|by apply preserves_modify..|by intros|by intros]. }
    specialize (Hget st). unfold same_progress in Hget.
    destruct (get_ip w (ip_url w) st) as [[p|e|c] st1] eqn:Hip; simpl in Hget.
    2: { rewrite (bind_raise _ _ _ _ _ Hip). exists []. split; [apply sublist_nil_l|].
         unfold progress_lines. simpl. by rewrite Hget, app_nil_r. }
    2: { rewrite (bind_exit _ _ _ _ _ Hip). exists []. split; [apply sublist_nil_l|].
         unfold progress_lines. simpl. by rewrite Hget, app_nil_r. }
    rewrite (bind_ok _ _ _ _ _ Hip).
    destruct (run_loop_progress w 1 l st1) as (ids & Hsub & Hp).
    exists ids. split; [done|].
    assert (progress_lines st1 = progress_lines st) as <-
      by (unfold progress_lines; by rewrite Hget).
    rewrite <- Hp. by destruct (run_loop w 1 l st1) as [[[]|e|c] st2]. }
  exists ids. split_and!; [done|done|].
  apply load_progress_lines. rewrite Hp, parse_progress_app.
  apply load_progress_lines in Hload. by rewrite Hload, parse_progress_of_Z.
Qed.




(** ** The turn of one item *)

Section Turn.

Context (w : World).

Lemma after_calls_fields evs st :
  history (after_calls w evs st) = (history st ++ evs)%list ∧
  error_log (after_calls w evs st) = error_log st ∧
  progress_log (after_calls w evs st) = progress_log st ∧
  proxy (after_calls w evs st) = proxy st.
Proof.
  revert st. induction evs as [|ev evs IH]; intros st.
  - simpl. by rewrite app_nil_r.
  - change (after_calls w (ev :: evs) st) with (after_calls w evs (emit w ev st).2).
    destruct (IH (emit w ev st).2) as (-> & -> & -> & ->). simpl.
    by rewrite <- app_assoc.
Qed.

Lemma after_calls_app evs1 evs2 st :
  after_calls w (evs1 ++ evs2) st = after_calls w evs2 (after_calls w evs1 st).
Proof. apply foldl_app. Qed.

Lemma extract_cover_image_clean v st :
  exec w (ffmpeg_command v) = Returned 0 →
  extract_cover_image w v st = (Ok tt, after_calls w [Exec (ffmpeg_command v)] st).
Proof.
  intros Hexec. unfold extract_cover_image, subprocess_run_check. mstep.
  by rewrite Hexec.
Qed.

Lemma cover_files_clean root files st :
  (∀ v, v ∈ file_paths root files → exec w (ffmpeg_command v) = Returned 0) →
  cover_files w root files st
  = (Ok tt, after_calls w (cover_calls (file_paths root files)) st).
Proof.
  revert st. induction files as [|file files IH]; intros st Hall; [done|].
  rewrite file_paths_cons in *. simpl cover_files.
  destruct (PyStr.endswith file ".mp4").
  - rewrite (bind_ok _ _ _ _ _ (extract_cover_image_clean _ st (Hall _ (list_elem_of_here _ _)))).
    rewrite IH; [done|]. intros v Hv. apply Hall. by right.
  - rewrite (bind_ok (mret tt) _ st tt st eq_refl). by apply IH.
Qed.

Lemma cover_walk_clean dirs st :
  (∀ v, v ∈ video_paths dirs → exec w (ffmpeg_command v) = Returned 0) →
  cover_walk w dirs st = (Ok tt, after_calls w (cover_calls (video_paths dirs)) st).
Proof.
  revert st. induction dirs as [|[root files] dirs IH]; intros st Hall; [done|].
  rewrite video_paths_cons in *. simpl cover_walk.
  rewrite (bind_ok _ _ _ _ _ (cover_files_clean root files st
             (fun v Hv => Hall v (proj2 (elem_of_app _ _ _) (or_introl Hv))))).
  rewrite IH.
  - unfold cover_calls. by rewrite fmap_app, after_calls_app.
  - intros v Hv. apply Hall, elem_of_app. by right.
Qed.

Lemma attempt_counts_one url st :
  fetches (try_except (attempt_body w url) (fun _ => sleep w 5;; mret None) st).2
  = S (fetches st).
Proof.
  unfold attempt_body, requests_get, json_loads, sleep, emit, first_entry. mstep.
  destruct (reply w (fetches st)) as [| |[code|] data]; try done. cbn.
  destruct (code =? 200); cbn; [|done].
  destruct data as [[|e l]|]; done.
Qed.

Lemma get_ip_loop_counts n url st :
  (fetches st ≤ fetches (get_ip_loop w n url st).2 ≤ fetches st + n)%nat ∧
  (n ≠ 0%nat → fetches st < fetches (get_ip_loop w n url st).2)%nat.
Proof.
  revert st. induction n as [|n IH]; intros st; [simpl; lia|].
  rewrite get_ip_loop_S. mstep.
  pose proof (attempt_counts_one url st) as Hone. unfold try_except in Hone.
  destruct (attempt_body w url st) as [[b|e|c] st1]; simpl in *.
  - destruct b as [data|]; simpl; [lia|]. specialize (IH st1). lia.
  - match goal with
    | |- context [get_ip_loop w n url ?s] => specialize (IH s)
    end.
    simpl in IH. lia.
  - lia.
Qed.

End Turn.

(** X12: the bound on the requests.  Whatever the proxy service answers,
    one call of [get_ip] sends at least one and at most five requests. *)
Theorem get_ip_request_bound (w : World) (url : string) (st : State) :
  (fetches st + 1 ≤ fetches (get_ip w url st).2 ≤ fetches st + 5)%nat.
Proof.
  pose proof (get_ip_loop_counts w max_retries url st) as [Hb Hpos].
  unfold get_ip. mstep.
  destruct (get_ip_loop w max_retries url st) as [[data|e|c] st1]; simpl in *;
    unfold max_retries in *; try lia.
  unfold first_entry. mstep.
  destruct data as [l|]; simpl; [|lia]. destruct (head l) as [e1|]; simpl; [|lia].
  destruct (ip e1); simpl; [|lia]. destruct (port e1); simpl; lia.
Qed.


(** X15: a directory that cannot be made.  When one of the three
    directories of an item cannot be made, only [makedirs] calls were
    made, on a prefix of the three, so that neither the download nor the
    extraction tool is run, and the handler of the item writes the item
    to the error ledger.  If this write goes through, the turn ends
    normally with the item in the error ledger; if it is refused, its
    exception leaves the turn.  The progress ledger is left alone. *)
Theorem directory_failure_skips_item (w : World) (index avid : Z) (st : State) :
  (∃ path, path ∈ item_dirs w avid ∧ makedirs w path ≠ None) →
  ∃ made,
    made `prefix_of` item_dirs w avid ∧
    (error_write w (error_writes st) = None →
     ∃ st',
       guarded_item w index avid st = (Ok tt, st') ∧
       error_log st' = (error_log st ++ [PyStr.of_Z avid])%list ∧
       progress_log st' = progress_log st ∧
       history st' = (history st ++ (Makedirs <$> made))%list) ∧
    (∀ e, error_write w (error_writes st) = Some e →
     ∃ st',
       guarded_item w index avid st = (Raise e, st') ∧
       error_log st' = error_log st ∧
       progress_log st' = progress_log st ∧
       history st' = (history st ++ (Makedirs <$> made))%list).
Proof.
  intros (path & Hin & Hfail).
  unfold guarded_item, process_item, create_directories, os_makedirs, emit,
    try_except. mstep.
  unfold item_dirs, audio_dir, video_dir in *.
  destruct (makedirs w (merge_dir w avid)) as [e1|] eqn:H1.
  { exists [merge_dir w avid]. split; [by exists [audio_dir w avid; video_dir w avid]|].
    rewrite log_error_eq. cbn [error_writes].
    split; [intros Hw|intros e Hw]; rewrite Hw; eexists; simpl;
      split_and!; reflexivity. }
  destruct (makedirs w (PosixPath.join (output_dir w) [PyStr.of_Z avid; "audio_only"]))
    as [e2|] eqn:H2.
  { exists [merge_dir w avid; audio_dir w avid]. split; [by exists [video_dir w avid]|].
    rewrite log_error_eq. cbn [error_writes].
    split; [intros Hw|intros e Hw]; rewrite Hw; eexists; simpl;
      (split_and!; try reflexivity); by rewrite <- app_assoc. }
  destruct (makedirs w (PosixPath.join (output_dir w) [PyStr.of_Z avid; "video_only"]))
    as [e3|] eqn:H3.
  { exists [merge_dir w avid; audio_dir w avid; video_dir w avid]. split; [done|].
    rewrite log_error_eq. cbn [error_writes].
    split; [intros Hw|intros e Hw]; rewrite Hw; eexists; simpl;
      (split_and!; try reflexivity); by rewrite <- !app_assoc. }
  exfalso. repeat (apply elem_of_cons in Hin as [->|Hin]; [congruence|]).
  by apply elem_of_nil in Hin.
Qed.

(** X22: a refused write after a failed download.  When the download
    command returns a failure status and the write of the item to the
    error ledger is refused, the exception of the write is caught by the
    [except Exception] clause of the same [try], which writes the item
    again: the command ends normally with the item in the error ledger
    if this second write goes through, and with the exception of the
    second write otherwise.  When [subprocess.run] itself raises, the
    write is made in an [except] clause and is not tried again: its
    exception leaves [generate_and_run_commands]. *)
Theorem refused_write_in_download (w : World) (avid : Z) (command : string)
    (st : State) (e : Exc) :
  error_write w (error_writes st) = Some e →
  (∀ rc, shell w command = Returned rc → rc ≠ 0 →
     (error_write w (S (error_writes st)) = None →
      ∃ st', run_command w avid command st = (Ok tt, st') ∧
             error_log st' = (error_log st ++ [PyStr.of_Z avid])%list ∧
             error_writes st' = (error_writes st + 2)%nat) ∧
     (∀ e', error_write w (S (error_writes st)) = Some e' →
      ∃ st', run_command w avid command st = (Raise e', st') ∧
             error_log st' = error_log st ∧
             error_writes st' = (error_writes st + 2)%nat)) ∧
  (∀ e0, shell w command = Threw e0 →
     ∃ st', run_command w avid command st = (Raise e, st') ∧
            error_log st' = error_log st ∧
            error_writes st' = (error_writes st + 1)%nat).
Proof.
  intros Hfirst. split.
  - intros rc Hshell Hrc.
    unfold run_command, subprocess_run_shell, emit, try_except. mstep.
    rewrite Hshell. destruct (Z.eqb_spec rc 0) as [?|_]; [done|].
    rewrite log_error_eq. cbn [error_writes]. rewrite Hfirst.
    assert (∀ label st0, log_error w label (refused st0) =
              match error_write w (S (error_writes st0)) with
              | Some e' => (Raise e', refused (refused st0))
              | None => (Ok tt, logged label (refused st0))
              end) as Hsecond by (intros; by rewrite log_error_eq).
    destruct e; rewrite Hsecond; cbn [error_writes];
      (split; [intros Hw|intros e' Hw]; rewrite Hw; eexists;
       (split_and!; [reflexivity|reflexivity|simpl; lia])).
  - intros e0 Hshell.
    unfold run_command, subprocess_run_shell, emit, try_except. mstep.
    rewrite Hshell.
    destruct e0; rewrite log_error_eq; cbn [error_writes]; rewrite Hfirst;
      eexists; (split_and!; [reflexivity|reflexivity|simpl; lia]).
Qed.

(** ** Instances *)

Lemma run_calls_belong_to_remaining_witness :
  ∃ evs,
    history (run Scenario.flaky_items Cases.resumed).2 = evs ∧
    Forall (run_event Scenario.flaky_items [102; 103]) evs.
Proof.
  destruct (run_calls_belong_to_remaining Scenario.flaky_items Cases.resumed
              [101; 102; 103] {[101]}) as (evs & Hh & Hall & _).
  - reflexivity.
  - by vm_compute.
  - exists evs. split; [exact Hh|]. exact Hall.
Defined.

Lemma run_error_lines_witness :
  ∃ new,
    error_log (run Scenario.flaky_items Cases.resumed).2 = new ∧
    Forall (run_error_line Scenario.flaky_items [102; 103]) new.
Proof.
  destruct (run_error_lines Scenario.flaky_items Cases.resumed
              [101; 102; 103] {[101]}) as (new & Hh & Hall).
  - reflexivity.
  - by vm_compute.
  - exists new. split; [exact Hh|]. exact Hall.
Defined.


Lemma get_ip_after_retries_witness :
  ∃ st',
    get_ip Cases.slow_service "http://issuer/get" (start [] None 0)
    = (Ok "http://10.0.0.1:8080", st') ∧ fetches st' = 3%nat.
Proof.
  destruct (get_ip_after_retries Cases.slow_service "http://issuer/get"
              (start [] None 0) 2
              {| ip := Some "10.0.0.1"; port := Some "8080" |} [] "10.0.0.1" "8080")
    as (st' & Hget & _ & _ & Hn & _).
  - lia.
  - intros j Hj. destruct j as [|[|j]]; [by left | right; by left | lia].
  - reflexivity.
  - reflexivity.
  - reflexivity.
  - exists st'. split; [exact Hget|exact Hn].
Defined.

Lemma get_ip_entry_without_address_witness :
  ∃ st',
    get_ip Scenario.lease_malformed "http://issuer/get" (Scenario.leased 2000)
    = (Raise KeyError, st') ∧ proxy st' = Scenario.lease.
Proof.
  destruct (get_ip_entry_without_address Scenario.lease_malformed "http://issuer/get"
              (Scenario.leased 2000) 0
              {| ip := None; port := Some "8080" |} [])
    as (st' & Hget & Hp & _).
  - lia.
  - intros j Hj. lia.
  - reflexivity.
  - by left.
  - exists st'. split; [exact Hget|exact Hp].
Defined.

Lemma get_ip_gives_up_on_unusable_witness :
  ∃ st',
    get_ip Cases.empty_service "http://issuer/get" (start [] None 0) = (Exit 1, st') ∧
    fetches st' = 5%nat.
Proof.
  destruct (get_ip_gives_up_on_unusable Cases.empty_service "http://issuer/get"
              (start [] None 0)) as (st' & Hget & Hn & _).
  - intros k _. right. by right.
  - exists st'. split; [exact Hget|exact Hn].
Defined.

Lemma checked_lease_is_fresh_witness :
  ∃ p, proxy (check_ip_validity Scenario.healthy (Scenario.leased 1301)).2 = Some p ∧
       clock (check_ip_validity Scenario.healthy (Scenario.leased 1301)).2
       - proxy_fetch_time (check_ip_validity Scenario.healthy (Scenario.leased 1301)).2
       ≤ 300.
Proof.
  apply (checked_lease_is_fresh Scenario.healthy (Scenario.leased 1301)).
  by vm_compute.
Defined.

Lemma run_with_nothing_remaining_witness :
  run Scenario.healthy (start [] (Some ["101"; "102"]) 0) =
  (match (get_ip Scenario.healthy "http://issuer/get"
            (start [] (Some ["101"; "102"]) 0)).1 with
   | Ok _ => Ok tt
   | _ => Exit 1
   end,
   (get_ip Scenario.healthy "http://issuer/get" (start [] (Some ["101"; "102"]) 0)).2).
Proof.
  destruct (run_with_nothing_remaining Scenario.healthy
              (start [] (Some ["101"; "102"]) 0) [101; 102] ({[101]} ∪ {[102]}))
    as [_ Hrun].
  - reflexivity.
  - by vm_compute.
  - intros avid Hin. repeat (apply elem_of_cons in Hin as [->|Hin]); [set_solver..|].
    by apply elem_of_nil in Hin.
  - exact Hrun.
Defined.

Lemma merge_dir_of_item_witness :
  merge_dir Scenario.healthy 101 = "small_output/b/101/merge" ∧ 101 = 101.
Proof.
  destruct (merge_dir_of_item Scenario.healthy 101) as [Hform Hinj].
  split; [exact Hform|]. apply Hinj. by left.
Defined.

Lemma completed_items_are_not_touched_witness :
  ∃ evs,
    history (run Scenario.flaky_items Cases.resumed).2 = evs ∧
    Makedirs (merge_dir Scenario.flaky_items 101) ∉ evs.
Proof.
  destruct (completed_items_are_not_touched Scenario.flaky_items Cases.resumed
              [101; 102; 103] {[101]}) as (evs & Hh & Hall).
  - reflexivity.
  - by vm_compute.
  - exists evs. split; [exact Hh|]. apply Hall. set_solver.
Defined.

Lemma cover_failure_records_file_name_witness :
  (∃ st',
     extract_cover_image (Scenario.one_item (Returned 1))
       (PosixPath.join "small_output/b/101/merge" ["v.mp4"]) (start [] None 0)
     = (Ok tt, st') ∧
     error_log st' = ["v.mp4"]) ∧
  (∃ st',
     extract_cover_image Cases.full_disk_cover
       (PosixPath.join "small_output/b/101/merge" ["v.mp4"]) (start [] None 0)
     = (Raise OSError, st') ∧
     error_log st' = []).
Proof.
  split.
  - destruct (cover_failure_records_file_name (Scenario.one_item (Returned 1))
                "small_output/b/101/merge" "v.mp4" 1 (start [] None 0))
      as [Hwritten _].
    + reflexivity.
    + reflexivity.
    + lia.
    + destruct Hwritten as (st' & Hcall & Herr & _); [reflexivity|].
      exists st'. split; [exact Hcall|exact Herr].
  - destruct (cover_failure_records_file_name Cases.full_disk_cover
                "small_output/b/101/merge" "v.mp4" 1 (start [] None 0))
      as [_ Hrefused].
    + reflexivity.
    + reflexivity.
    + lia.
    + destruct (Hrefused OSError) as (st' & Hcall & Herr & _); [reflexivity|].
      exists st'. split; [exact Hcall|exact Herr].
Defined.

Lemma log_file_meets_ledger_witness :
  log_file_path (main_output_dir "progress") "progress"
  = progress_log_path (main_output_dir "progress").
Proof.
  destruct (log_file_meets_ledger "progress") as (_ & [_ Hsame] & _).
  - reflexivity.
  - by apply Hsame.
Defined.



Lemma directory_failure_skips_item_witness :
  (∃ st',
     guarded_item Cases.no_audio_dir 1 101 (Scenario.leased 1001) = (Ok tt, st') ∧
     error_log st' = ["101"] ∧ progress_log st' = None) ∧
  (∃ st',
     guarded_item Cases.read_only 1 101 (Scenario.leased 1001) = (Raise OSError, st') ∧
     error_log st' = [] ∧ progress_log st' = None).
Proof.
  split.
  - destruct (directory_failure_skips_item Cases.no_audio_dir 1 101
                (Scenario.leased 1001)) as (made & _ & Hwritten & _).
    + exists (audio_dir Cases.no_audio_dir 101). split.
      * right. by left.
      * by vm_compute.
    + destruct Hwritten as (st' & Hitem & He & Hp & _); [reflexivity|].
      exists st'. split; [exact Hitem|]. split; [exact He|exact Hp].
  - destruct (directory_failure_skips_item Cases.read_only 1 101
                (Scenario.leased 1001)) as (made & _ & _ & Hrefused).
    + exists (merge_dir Cases.read_only 101). split.
      * by left.
      * by vm_compute.
    + destruct (Hrefused OSError) as (st' & Hitem & He & Hp & _); [reflexivity|].
      exists st'. split; [exact Hitem|]. split; [exact He|exact Hp].
Defined.


Lemma refused_write_in_download_witness :
  (∃ st', run_command (Cases.disk_world (Returned 1) Cases.refused_once) 101
            (Scenario.download_of 101) (Scenario.leased 1001) = (Ok tt, st') ∧
          error_log st' = ["101"] ∧ error_writes st' = 2%nat) ∧
  (∃ st', run_command (Cases.disk_world (Threw TimeoutExpired) Cases.refused_once) 101
            (Scenario.download_of 101) (Scenario.leased 1001) = (Raise OSError, st') ∧
          error_log st' = [] ∧ error_writes st' = 1%nat).
Proof.
  split.
  - destruct (refused_write_in_download (Cases.disk_world (Returned 1) Cases.refused_once)
                101 (Scenario.download_of 101) (Scenario.leased 1001) OSError)
      as [Hstatus _]; [reflexivity|].
    destruct (Hstatus 1) as [Hretry _]; [reflexivity|lia|].
    apply Hretry. reflexivity.
  - destruct (refused_write_in_download
                (Cases.disk_world (Threw TimeoutExpired) Cases.refused_once)
                101 (Scenario.download_of 101) (Scenario.leased 1001) OSError)
      as [_ Hraise]; [reflexivity|].
    apply (Hraise TimeoutExpired). reflexivity.
Defined.
